(** * react-mp3-player: playback controller, playlist store and navigation

    A shallow embedding of [src/hooks/useAudioPlayer.js] (the playback /
    playlist state machine) and of the utilities of [src/index.js]: the
    navigation ones ([shuffleArray], [getNextTrackIndex],
    [getPreviousTrackIndex]) and the audio ones ([isAudioFile],
    [isValidFileSize], [formatTime], [calculateProgress], [generateFileId],
    [validateAudioFiles]).

    Conventions of the embedding.
    - JavaScript numbers used as indices and lengths are integers [Z];
      [%] is JavaScript's remainder (sign of the dividend), [Z.rem].
    - JavaScript numbers used as times, volumes, rates and track ids are
      exact rationals [Q]; [NaN] and the infinities are outside the model.
      Where the hook keeps the result of an addition (the skips), the
      rounding of the exact result is a parameter [fl].
    - An array is a [list]; [a[k]] out of range reads [undefined], a write
      past the end extends the array ([js_get], [js_set]).
    - The hook's React state is a record; an event handler or a command is
      a function from the committed state to the next one.  The closure
      values a callback reads are those of the committed state. *)

From Stdlib Require Import ZArith QArith Qround Qminmax Lia Lqa Ascii String.
From stdpp Require Import base list strings pretty.

Local Open Scope Z_scope.

(** ** JavaScript arrays *)

Module JsArray.
Section Elements.
Context {A : Type}.
(** The value an out-of-range read yields and a hole holds. *)
Variable undefined : A.

(** [a[k]]. *)
Definition js_get (a : list A) (k : Z) : A :=
  if k <? 0 then undefined
  else default undefined (a !! Z.to_nat k).

(** [a[k] = v].  A negative [k] names a property, not an element; an index
    past the end extends the array, the cells in between are holes. *)
Definition js_set (a : list A) (k : Z) (v : A) : list A :=
  if k <? 0 then a
  else
    let n := Z.to_nat k in
    if (n <? length a)%nat then <[n := v]> a
    else a ++ replicate (n - length a) undefined ++ [v].
End Elements.

(** [a.indexOf(x)] on an array of numbers: first position, or [-1]. *)
Fixpoint indexOf (a : list Z) (x : Z) : Z :=
  match a with
  | [] => -1
  | y :: a' =>
      if y =? x then 0
      else let r := indexOf a' x in if r =? -1 then -1 else r + 1
  end.

(** [a[k]] where [undefined] is kept apart from the numbers. *)
Definition js_nth (a : list Z) (k : Z) : option Z :=
  if k <? 0 then None else a !! Z.to_nat k.
End JsArray.

(** ** Navigation utilities ([src/index.js]) *)

Module Utils.
Import JsArray.

(** [getNextTrackIndex(currentIndex, totalTracks, shuffle = false,
    shuffledIndices = [])].  [None] is JavaScript's [undefined]. *)
Definition getNextTrackIndex (currentIndex totalTracks : Z)
    (shuffle : bool) (shuffledIndices : list Z) : option Z :=
  if totalTracks =? 0 then Some (-1)
  else if shuffle && (0 <? Z.of_nat (length shuffledIndices)) then
    let currentShuffleIndex := indexOf shuffledIndices currentIndex in
    let nextShuffleIndex :=
      Z.rem (currentShuffleIndex + 1) (Z.of_nat (length shuffledIndices)) in
    js_nth shuffledIndices nextShuffleIndex
  else Some (Z.rem (currentIndex + 1) totalTracks).

(** [getPreviousTrackIndex(currentIndex, totalTracks, shuffle = false,
    shuffledIndices = [])]. *)
Definition getPreviousTrackIndex (currentIndex totalTracks : Z)
    (shuffle : bool) (shuffledIndices : list Z) : option Z :=
  if totalTracks =? 0 then Some (-1)
  else if shuffle && (0 <? Z.of_nat (length shuffledIndices)) then
    let currentShuffleIndex := indexOf shuffledIndices currentIndex in
    let prevShuffleIndex :=
      if currentShuffleIndex =? 0
      then Z.of_nat (length shuffledIndices) - 1
      else currentShuffleIndex - 1 in
    js_nth shuffledIndices prevShuffleIndex
  else Some (if currentIndex =? 0 then totalTracks - 1 else currentIndex - 1).

(** Linear mode: the two optional arguments take their defaults. *)
Definition nextLinear (currentIndex totalTracks : Z) : option Z :=
  getNextTrackIndex currentIndex totalTracks false [].

Definition previousLinear (currentIndex totalTracks : Z) : option Z :=
  getPreviousTrackIndex currentIndex totalTracks false [].

Section Shuffle.
Context {A : Type}.
Variable undefined : A.
(** [random k] is the value of the [k]-th call of [Math.random()]. *)
Variable random : nat -> Q.

(** [Math.floor(Math.random() * (i + 1))] at the [k]-th call. *)
Definition draw (k : nat) (i : nat) : Z :=
  Qfloor (random k * inject_Z (Z.of_nat i + 1)).

(** The loop [for (let i = shuffled.length - 1; i > 0; i--)]: [i] is the
    loop counter, [k] the number of draws made so far.  The destructuring
    swap reads both cells, then writes [shuffled[i]], then [shuffled[j]]. *)
Fixpoint shuffle_loop (k i : nat) (shuffled : list A) : list A :=
  match i with
  | O => shuffled
  | S i' =>
      let j := draw k i in
      let sj := js_get undefined shuffled j in
      let si := js_get undefined shuffled (Z.of_nat i) in
      let shuffled1 := js_set undefined shuffled (Z.of_nat i) sj in
      let shuffled2 := js_set undefined shuffled1 j si in
      shuffle_loop (S k) i' shuffled2
  end.

(** [shuffleArray(array)]: the copy [[...array]] is the list itself.  On
    the empty array [length - 1] is [-1] and the loop does not run. *)
Definition shuffleArray (array : list A) : list A :=
  shuffle_loop 0 (length array - 1) array.
End Shuffle.
End Utils.

(** ** JavaScript numbers as rationals *)

Module JsNum.
(** [x > 0] and the like, as a boolean: [x < y]. *)
Definition Qlt_bool (x y : Q) : bool := negb (Qle_bool y x).
End JsNum.

(** ** The media element

    The part of [HTMLAudioElement] the hook deals with: the attributes it
    writes, the [duration] it reads ([None] is [NaN], no duration known),
    and the tasks the element has queued for its listeners and not run
    yet. *)

Module Audio.
(** The events the hook listens to. *)
Inductive Event : Type :=
  | loadstart
  | loadedmetadata
  | canplay
  | timeupdate
  | ended
  | error
  | waiting
  | canplaythrough
  | volumechange.

Record t := {
  src : string;
  preload : string;
  paused : bool;
  currentTime : Q;
  volume : Q;
  muted : bool;
  playbackRate : Q;
  duration : option Q;
  pending : list Event
}.

Definition with_Src (v : string) (s : t) : t :=
  {| src := v; preload := preload s; paused := paused s; currentTime := currentTime s; volume := volume s; muted := muted s; playbackRate := playbackRate s; duration := duration s; pending := pending s |}.

Definition with_Preload (v : string) (s : t) : t :=
  {| src := src s; preload := v; paused := paused s; currentTime := currentTime s; volume := volume s; muted := muted s; playbackRate := playbackRate s; duration := duration s; pending := pending s |}.

Definition with_Paused (v : bool) (s : t) : t :=
  {| src := src s; preload := preload s; paused := v; currentTime := currentTime s; volume := volume s; muted := muted s; playbackRate := playbackRate s; duration := duration s; pending := pending s |}.

Definition with_CurrentTime (v : Q) (s : t) : t :=
  {| src := src s; preload := preload s; paused := paused s; currentTime := v; volume := volume s; muted := muted s; playbackRate := playbackRate s; duration := duration s; pending := pending s |}.

Definition with_Volume (v : Q) (s : t) : t :=
  {| src := src s; preload := preload s; paused := paused s; currentTime := currentTime s; volume := v; muted := muted s; playbackRate := playbackRate s; duration := duration s; pending := pending s |}.

Definition with_Muted (v : bool) (s : t) : t :=
  {| src := src s; preload := preload s; paused := paused s; currentTime := currentTime s; volume := volume s; muted := v; playbackRate := playbackRate s; duration := duration s; pending := pending s |}.

Definition with_PlaybackRate (v : Q) (s : t) : t :=
  {| src := src s; preload := preload s; paused := paused s; currentTime := currentTime s; volume := volume s; muted := muted s; playbackRate := v; duration := duration s; pending := pending s |}.

Definition with_Duration (v : option Q) (s : t) : t :=
  {| src := src s; preload := preload s; paused := paused s; currentTime := currentTime s; volume := volume s; muted := muted s; playbackRate := playbackRate s; duration := v; pending := pending s |}.

Definition with_Pending (v : list Event) (s : t) : t :=
  {| src := src s; preload := preload s; paused := paused s; currentTime := currentTime s; volume := volume s; muted := muted s; playbackRate := playbackRate s; duration := duration s; pending := v |}.

(** [defaultPlaybackRate], which the hook never writes. *)
Definition defaultPlaybackRate : Q := 1%Q.

(** [new Audio()]. *)
Definition new : t :=
  {| src := ""; preload := "auto"; paused := true; currentTime := 0%Q;
     volume := 1%Q; muted := false; playbackRate := defaultPlaybackRate;
     duration := None; pending := [] |}.

(** [audio.pause()]. *)
Definition pause (a : t) : t := with_Paused true a.

(** [audio.load()]: the load algorithm of the element.  The tasks still
    queued for the listeners are removed, the element is paused, the
    position goes back to [0], the duration is unknown again and the
    playback rate returns to the default rate; source, volume and mute are
    kept.  The events of the load it starts are queued later, by the
    browser. *)
Definition load (a : t) : t :=
  {| src := src a; preload := preload a; paused := true;
     currentTime := 0%Q; volume := volume a; muted := muted a;
     playbackRate := defaultPlaybackRate; duration := None; pending := [] |}.
End Audio.

(** ** The hook ([src/hooks/useAudioPlayer.js]) *)

Module Player.

(** A track descriptor.  The hook reads [url] and [id] only; the further
    attributes a descriptor carries (file, size, type) pass through
    untouched and are left out. *)
Record Track := {
  id : Q;
  name : string;
  url : string
}.

(** The thirteen pieces of state of the hook; [audioRef] is
    [audioRef.current], [None] being [null]. *)
Record State := {
  isPlaying : bool;
  isLoading : bool;
  duration : Q;
  currentTime : Q;
  volume : Q;
  isMuted : bool;
  playbackRate : Q;
  currentTrack : option Track;
  playlist : list Track;
  currentTrackIndex : Z;
  error : option string;
  isBuffering : bool;
  audioRef : option Audio.t
}.

Definition setIsPlaying (v : bool) (s : State) : State :=
  {| isPlaying := v; isLoading := isLoading s; duration := duration s; currentTime := currentTime s; volume := volume s; isMuted := isMuted s; playbackRate := playbackRate s; currentTrack := currentTrack s; playlist := playlist s; currentTrackIndex := currentTrackIndex s; error := error s; isBuffering := isBuffering s; audioRef := audioRef s |}.

Definition setIsLoading (v : bool) (s : State) : State :=
  {| isPlaying := isPlaying s; isLoading := v; duration := duration s; currentTime := currentTime s; volume := volume s; isMuted := isMuted s; playbackRate := playbackRate s; currentTrack := currentTrack s; playlist := playlist s; currentTrackIndex := currentTrackIndex s; error := error s; isBuffering := isBuffering s; audioRef := audioRef s |}.

Definition setDuration (v : Q) (s : State) : State :=
  {| isPlaying := isPlaying s; isLoading := isLoading s; duration := v; currentTime := currentTime s; volume := volume s; isMuted := isMuted s; playbackRate := playbackRate s; currentTrack := currentTrack s; playlist := playlist s; currentTrackIndex := currentTrackIndex s; error := error s; isBuffering := isBuffering s; audioRef := audioRef s |}.

Definition setCurrentTime (v : Q) (s : State) : State :=
  {| isPlaying := isPlaying s; isLoading := isLoading s; duration := duration s; currentTime := v; volume := volume s; isMuted := isMuted s; playbackRate := playbackRate s; currentTrack := currentTrack s; playlist := playlist s; currentTrackIndex := currentTrackIndex s; error := error s; isBuffering := isBuffering s; audioRef := audioRef s |}.

Definition setVolume (v : Q) (s : State) : State :=
  {| isPlaying := isPlaying s; isLoading := isLoading s; duration := duration s; currentTime := currentTime s; volume := v; isMuted := isMuted s; playbackRate := playbackRate s; currentTrack := currentTrack s; playlist := playlist s; currentTrackIndex := currentTrackIndex s; error := error s; isBuffering := isBuffering s; audioRef := audioRef s |}.

Definition setIsMuted (v : bool) (s : State) : State :=
  {| isPlaying := isPlaying s; isLoading := isLoading s; duration := duration s; currentTime := currentTime s; volume := volume s; isMuted := v; playbackRate := playbackRate s; currentTrack := currentTrack s; playlist := playlist s; currentTrackIndex := currentTrackIndex s; error := error s; isBuffering := isBuffering s; audioRef := audioRef s |}.

Definition setPlaybackRate (v : Q) (s : State) : State :=
  {| isPlaying := isPlaying s; isLoading := isLoading s; duration := duration s; currentTime := currentTime s; volume := volume s; isMuted := isMuted s; playbackRate := v; currentTrack := currentTrack s; playlist := playlist s; currentTrackIndex := currentTrackIndex s; error := error s; isBuffering := isBuffering s; audioRef := audioRef s |}.

Definition setCurrentTrack (v : option Track) (s : State) : State :=
  {| isPlaying := isPlaying s; isLoading := isLoading s; duration := duration s; currentTime := currentTime s; volume := volume s; isMuted := isMuted s; playbackRate := playbackRate s; currentTrack := v; playlist := playlist s; currentTrackIndex := currentTrackIndex s; error := error s; isBuffering := isBuffering s; audioRef := audioRef s |}.

Definition setPlaylist (v : list Track) (s : State) : State :=
  {| isPlaying := isPlaying s; isLoading := isLoading s; duration := duration s; currentTime := currentTime s; volume := volume s; isMuted := isMuted s; playbackRate := playbackRate s; currentTrack := currentTrack s; playlist := v; currentTrackIndex := currentTrackIndex s; error := error s; isBuffering := isBuffering s; audioRef := audioRef s |}.

Definition setCurrentTrackIndex (v : Z) (s : State) : State :=
  {| isPlaying := isPlaying s; isLoading := isLoading s; duration := duration s; currentTime := currentTime s; volume := volume s; isMuted := isMuted s; playbackRate := playbackRate s; currentTrack := currentTrack s; playlist := playlist s; currentTrackIndex := v; error := error s; isBuffering := isBuffering s; audioRef := audioRef s |}.

Definition setError (v : option string) (s : State) : State :=
  {| isPlaying := isPlaying s; isLoading := isLoading s; duration := duration s; currentTime := currentTime s; volume := volume s; isMuted := isMuted s; playbackRate := playbackRate s; currentTrack := currentTrack s; playlist := playlist s; currentTrackIndex := currentTrackIndex s; error := v; isBuffering := isBuffering s; audioRef := audioRef s |}.

Definition setIsBuffering (v : bool) (s : State) : State :=
  {| isPlaying := isPlaying s; isLoading := isLoading s; duration := duration s; currentTime := currentTime s; volume := volume s; isMuted := isMuted s; playbackRate := playbackRate s; currentTrack := currentTrack s; playlist := playlist s; currentTrackIndex := currentTrackIndex s; error := error s; isBuffering := v; audioRef := audioRef s |}.

Definition setAudioRef (v : option Audio.t) (s : State) : State :=
  {| isPlaying := isPlaying s; isLoading := isLoading s; duration := duration s; currentTime := currentTime s; volume := volume s; isMuted := isMuted s; playbackRate := playbackRate s; currentTrack := currentTrack s; playlist := playlist s; currentTrackIndex := currentTrackIndex s; error := error s; isBuffering := isBuffering s; audioRef := v |}.

(** [useState] initial values; [useRef(null)]. *)
Definition init : State :=
  {| isPlaying := false; isLoading := false; duration := 0%Q;
     currentTime := 0%Q; volume := 1%Q; isMuted := false;
     playbackRate := 1%Q; currentTrack := None; playlist := [];
     currentTrackIndex := 0; error := None; isBuffering := false;
     audioRef := None |}.

(** The first lines of the effect: create the element once. *)
Definition mount (s : State) : State :=
  match audioRef s with
  | None => setAudioRef (Some (Audio.with_Preload "metadata" Audio.new)) s
  | Some _ => s
  end.

(** *** Commands *)

Definition loadTrack (track : option Track) (s : State) : State :=
  match audioRef s, track with
  | Some audio, Some tr =>
      (* Stop current playback *)
      let audio := Audio.pause audio in
      let s := setIsPlaying false s in
      let s := setCurrentTime 0%Q s in
      let s := setError None s in
      (* Load new track *)
      let audio := Audio.with_Src (url tr) audio in
      let audio := Audio.load audio in
      setCurrentTrack (Some tr) (setAudioRef (Some audio) s)
  | _, _ => s
  end.

(** [play] up to its [await]: the attempt is issued, its outcome comes
    back later as [play_resolved] or [play_rejected]. *)
Definition play (s : State) : State :=
  match audioRef s, currentTrack s with
  | Some _, Some _ => setError None s
  | _, _ => s
  end.

(** The continuation of [play] after the promise resolves: the element
    plays, [setIsPlaying(true)]. *)
Definition play_resolved (s : State) : State :=
  match audioRef s with
  | Some audio =>
      setIsPlaying true (setAudioRef (Some (Audio.with_Paused false audio)) s)
  | None => s
  end.

(** The [catch] branch of [play]. *)
Definition play_rejected (s : State) : State :=
  setIsPlaying false (setError (Some "Failed to play audio"%string) s).

Definition pause (s : State) : State :=
  match audioRef s with
  | Some audio => setIsPlaying false (setAudioRef (Some (Audio.pause audio)) s)
  | None => s
  end.

Definition togglePlayPause (s : State) : State :=
  if isPlaying s then pause s else play s.

Definition stop (s : State) : State :=
  match audioRef s with
  | Some audio =>
      let audio := Audio.pause audio in
      let audio := Audio.with_CurrentTime 0%Q audio in
      setCurrentTime 0%Q (setIsPlaying false (setAudioRef (Some audio) s))
  | None => s
  end.

Definition seek (time : Q) (s : State) : State :=
  match audioRef s with
  | Some audio =>
      let clampedTime := Qmax 0 (Qmin time (duration s)) in
      let audio := Audio.with_CurrentTime clampedTime audio in
      setCurrentTime clampedTime (setAudioRef (Some audio) s)
  | None => s
  end.

Definition changeVolume (newVolume : Q) (s : State) : State :=
  match audioRef s with
  | Some audio =>
      let clampedVolume := Qmax 0 (Qmin 1 newVolume) in
      let audio := Audio.with_Volume clampedVolume audio in
      let s' := setVolume clampedVolume (setAudioRef (Some audio) s) in
      (* Unmute if volume is set above 0 *)
      if JsNum.Qlt_bool 0 clampedVolume && isMuted s then
        setIsMuted false (setAudioRef (Some (Audio.with_Muted false audio)) s')
      else s'
  | None => s
  end.

Definition toggleMute (s : State) : State :=
  match audioRef s with
  | Some audio =>
      let audio := Audio.with_Muted (negb (Audio.muted audio)) audio in
      setIsMuted (negb (isMuted s)) (setAudioRef (Some audio) s)
  | None => s
  end.

Definition changePlaybackRate (rate : Q) (s : State) : State :=
  match audioRef s with
  | Some audio =>
      let clampedRate := Qmax (1 # 4) (Qmin 4 rate) in
      let audio := Audio.with_PlaybackRate clampedRate audio in
      setPlaybackRate clampedRate (setAudioRef (Some audio) s)
  | None => s
  end.

(** [{ ...track, id: Date.now() + Math.random() }]; [now] and [rnd] are the
    values of the two calls. *)
Definition withFreshId (now rnd : Q) (track : Track) : Track :=
  {| id := (now + rnd)%Q; name := name track; url := url track |}.

Definition addToPlaylist (now rnd : Q) (track : Track) (s : State) : State :=
  setPlaylist (playlist s ++ [withFreshId now rnd track]) s.

(** [track.id === trackId] on numbers. *)
Definition hasId (trackId : Q) (track : Track) : bool :=
  Qeq_bool (id track) trackId.

(** [prev.findIndex(track => track.id === trackId)]. *)
Fixpoint findIndex (trackId : Q) (prev : list Track) : Z :=
  match prev with
  | [] => -1
  | track :: rest =>
      if hasId trackId track then 0
      else let r := findIndex trackId rest in if r =? -1 then -1 else r + 1
  end.

Definition removeFromPlaylist (trackId : Q) (s : State) : State :=
  let prev := playlist s in
  let newPlaylist := List.filter (fun track => negb (hasId trackId track)) prev in
  (* Adjust current track index if necessary *)
  let removedIndex := findIndex trackId prev in
  let s :=
    if negb (removedIndex =? -1) && (removedIndex <=? currentTrackIndex s)
    then setCurrentTrackIndex (Z.max 0 (currentTrackIndex s - 1)) s
    else s in
  setPlaylist newPlaylist s.

Definition clearPlaylist (s : State) : State :=
  let s := setPlaylist [] s in
  let s := setCurrentTrackIndex 0 s in
  let s := stop s in
  setCurrentTrack None s.

Definition playTrack (trackIndex : Z) (s : State) : State :=
  if (trackIndex <? 0) || (trackIndex >=? Z.of_nat (length (playlist s)))
  then s
  else
    let track := JsArray.js_get None (Some <$> playlist s) trackIndex in
    loadTrack track (setCurrentTrackIndex trackIndex s).

Definition playNext (s : State) : State :=
  if Z.of_nat (length (playlist s)) =? 0 then s
  else
    let nextIndex :=
      Z.rem (currentTrackIndex s + 1) (Z.of_nat (length (playlist s))) in
    playTrack nextIndex s.

Definition playPrevious (s : State) : State :=
  if Z.of_nat (length (playlist s)) =? 0 then s
  else
    let prevIndex :=
      if currentTrackIndex s =? 0
      then Z.of_nat (length (playlist s)) - 1
      else currentTrackIndex s - 1 in
    playTrack prevIndex s.

(** [currentTime + seconds] and [currentTime - seconds] are operations on
    binary64 numbers: [fl] is the rounding the engine applies to the exact
    result. *)
Definition skipForward (fl : Q -> Q) (seconds : Q) (s : State) : State :=
  seek (fl (currentTime s + seconds)%Q) s.

Definition skipBackward (fl : Q -> Q) (seconds : Q) (s : State) : State :=
  seek (fl (currentTime s - seconds)%Q) s.

(** *** Handlers of the element's events *)

Definition handleLoadStart (s : State) : State :=
  setError None (setIsBuffering true (setIsLoading true s)).

(** [audioDuration] is [audio.duration] as the handler reads it. *)
Definition handleLoadedMetadata (audioDuration : Q) (s : State) : State :=
  setIsLoading false (setDuration audioDuration s).

Definition handleCanPlay (s : State) : State := setIsBuffering false s.

Definition handleTimeUpdate (s : State) : State :=
  match audioRef s with
  | Some audio => setCurrentTime (Audio.currentTime audio) s
  | None => s
  end.

Definition handleEnded (s : State) : State :=
  let s' := setCurrentTime 0%Q (setIsPlaying false s) in
  (* Auto-play next track if available *)
  if (0 <? Z.of_nat (length (playlist s)))
     && (currentTrackIndex s <? Z.of_nat (length (playlist s)) - 1)
  then playNext s'
  else s'.

Definition handleError (s : State) : State :=
  setError (Some "Failed to load audio file"%string)
    (setIsBuffering false (setIsLoading false (setIsPlaying false s))).

Definition handleWaiting (s : State) : State := setIsBuffering true s.

Definition handleCanPlayThrough (s : State) : State := setIsBuffering false s.

Definition handleVolumeChange (s : State) : State :=
  match audioRef s with
  | Some audio => setIsMuted (Audio.muted audio) (setVolume (Audio.volume audio) s)
  | None => s
  end.

(** *** The hook as a transition system

    What can happen to a mounted hook: the effect runs, the user issues a
    command, the element fires an event, a pending [play()] settles.  Here
    an event may arrive at any moment and its handler may read any value;
    [Browser] below tells which events the element really delivers. *)

Inductive Action : Type :=
  | Mount
  | LoadTrack (track : option Track)
  | Play
  | PlayResolved
  | PlayRejected
  | Pause
  | TogglePlayPause
  | Stop
  | Seek (time : Q)
  | ChangeVolume (newVolume : Q)
  | ToggleMute
  | ChangePlaybackRate (rate : Q)
  | AddToPlaylist (now rnd : Q) (track : Track)
  | RemoveFromPlaylist (trackId : Q)
  | ClearPlaylist
  | PlayTrack (trackIndex : Z)
  | PlayNext
  | PlayPrevious
  | SkipForward (fl : Q -> Q) (seconds : Q)
  | SkipBackward (fl : Q -> Q) (seconds : Q)
  | LoadStart
  | LoadedMetadata (audioDuration : Q)
  | CanPlay
  | TimeUpdate (position : Q)
  | Ended
  | Error
  | Waiting
  | CanPlayThrough
  | VolumeChange.

(** A listener runs only once the effect has attached it to the element. *)
Definition deliver (handler : State -> State) (s : State) : State :=
  match audioRef s with
  | Some _ => handler s
  | None => s
  end.

(** The browser moves the playback position before it fires [timeupdate]. *)
Definition advance (position : Q) (s : State) : State :=
  match audioRef s with
  | Some audio => setAudioRef (Some (Audio.with_CurrentTime position audio)) s
  | None => s
  end.

Definition step (a : Action) (s : State) : State :=
  match a with
  | Mount => mount s
  | LoadTrack track => loadTrack track s
  | Play => play s
  | PlayResolved => deliver play_resolved s
  | PlayRejected => deliver play_rejected s
  | Pause => pause s
  | TogglePlayPause => togglePlayPause s
  | Stop => stop s
  | Seek time => seek time s
  | ChangeVolume newVolume => changeVolume newVolume s
  | ToggleMute => toggleMute s
  | ChangePlaybackRate rate => changePlaybackRate rate s
  | AddToPlaylist now rnd track => addToPlaylist now rnd track s
  | RemoveFromPlaylist trackId => removeFromPlaylist trackId s
  | ClearPlaylist => clearPlaylist s
  | PlayTrack trackIndex => playTrack trackIndex s
  | PlayNext => playNext s
  | PlayPrevious => playPrevious s
  | SkipForward fl seconds => skipForward fl seconds s
  | SkipBackward fl seconds => skipBackward fl seconds s
  | LoadStart => deliver handleLoadStart s
  | LoadedMetadata audioDuration => deliver (handleLoadedMetadata audioDuration) s
  | CanPlay => deliver handleCanPlay s
  | TimeUpdate position => deliver handleTimeUpdate (advance position s)
  | Ended => deliver handleEnded s
  | Error => deliver handleError s
  | Waiting => deliver handleWaiting s
  | CanPlayThrough => deliver handleCanPlayThrough s
  | VolumeChange => deliver handleVolumeChange s
  end.

Fixpoint run (acts : list Action) (s : State) : State :=
  match acts with
  | [] => s
  | a :: acts' => run acts' (step a s)
  end.

(** The states the hook can be in. *)
Inductive reachable : State -> Prop :=
  | reachable_init : reachable init
  | reachable_step a s : reachable s -> reachable (step a s).

(** The volume of the session and of the element stay within [[0,1]], and
    nothing is muted before the element exists. *)
Definition volume_ok (s : State) : Prop :=
  (0 <= volume s <= 1)%Q /\
  match audioRef s with
  | Some audio => (0 <= Audio.volume audio <= 1)%Q
  | None => isMuted s = false
  end.

(** [s'] has the volume, the mute flag and the element's volume of [s]. *)
Definition keeps_volume (s s' : State) : Prop :=
  volume s' = volume s /\
  isMuted s' = isMuted s /\
  Audio.volume <$> audioRef s' = Audio.volume <$> audioRef s.

End Player.

(** ** The element's events as the browser delivers them

    A listener of the hook runs when the element's task for it is taken
    from the queue; [audio.load()] empties the queue. *)

Module Browser.
Import Player.

Section Resources.
(** The duration the browser finds in the resource behind a url. *)
Variable resourceDuration : string -> Q.

(** What the browser does between two commands of the user. *)
Inductive Activity : Type :=
  | MetadataParsed
  | Progress (position : Q)
  | Signal (e : Audio.Event)
  | Dispatch.

Definition enqueue (e : Audio.Event) (audio : Audio.t) : Audio.t :=
  Audio.with_Pending (Audio.pending audio ++ [e]) audio.

(** The listener the effect has attached for an event.  [loadedmetadata] is
    queued with the duration known and [load] removes both, so the handler
    does not meet an unknown duration. *)
Definition listener (e : Audio.Event) (s : State) : State :=
  match e with
  | Audio.loadstart => handleLoadStart s
  | Audio.loadedmetadata =>
      match audioRef s with
      | Some audio =>
          match Audio.duration audio with
          | Some audioDuration => handleLoadedMetadata audioDuration s
          | None => s
          end
      | None => s
      end
  | Audio.canplay => handleCanPlay s
  | Audio.timeupdate => handleTimeUpdate s
  | Audio.ended => handleEnded s
  | Audio.error => handleError s
  | Audio.waiting => handleWaiting s
  | Audio.canplaythrough => handleCanPlayThrough s
  | Audio.volumechange => handleVolumeChange s
  end.

(** - [MetadataParsed]: the metadata of the current source is read; the
      element takes its duration and queues [loadedmetadata];
    - [Progress]: playback moves the position and queues [timeupdate];
    - [Signal]: the element queues another event ([loadedmetadata] only
      comes with the metadata);
    - [Dispatch]: the first queued task leaves the queue and its listener
      runs. *)
Definition browse (act : Activity) (s : State) : State :=
  match audioRef s with
  | None => s
  | Some audio =>
      match act with
      | MetadataParsed =>
          let known :=
            Audio.with_Duration (Some (resourceDuration (Audio.src audio)))
              audio in
          setAudioRef (Some (enqueue Audio.loadedmetadata known)) s
      | Progress position =>
          let moved := Audio.with_CurrentTime position audio in
          setAudioRef (Some (enqueue Audio.timeupdate moved)) s
      | Signal Audio.loadedmetadata => s
      | Signal e => setAudioRef (Some (enqueue e audio)) s
      | Dispatch =>
          match Audio.pending audio with
          | [] => s
          | e :: rest =>
              listener e (setAudioRef (Some (Audio.with_Pending rest audio)) s)
          end
      end
  end.

Fixpoint run (acts : list Activity) (s : State) : State :=
  match acts with
  | [] => s
  | act :: acts' => run acts' (browse act s)
  end.
End Resources.





End Browser.

(** ** The specification's wording

    The statements of the specification that the hook is compared with,
    written after the specification's words. *)

Module Spec.
Import Player.

(** The outcome of [add(track)] of the Playlist Store. *)
Inductive AddResult : Type :=
  | Added (playlist : list Track)
  | DuplicateIdError.

(** [add(track)]: appends the track to the end; fails with
    [DuplicateIdError] if a track with the same id already exists. *)
Definition add (track : Track) (tracks : list Track) : AddResult :=
  if existsb (hasId (id track)) tracks then DuplicateIdError
  else Added (tracks ++ [track]).

(** Auto-advance on [ended]: the next index of the linear policy is
    computed from the current one and that track is loaded. *)
Definition auto_advances (s : State) : Prop :=
  exists next track,
    Utils.nextLinear (currentTrackIndex s) (Z.of_nat (length (playlist s)))
      = Some next /\
    JsArray.js_get None (Some <$> playlist s) next = Some track /\
    currentTrackIndex (handleEnded s) = next /\
    currentTrack (handleEnded s) = Some track.

(** Removing the loaded track stops playback and falls back to [Empty]. *)
Definition removal_empties (trackId : Q) (s : State) : Prop :=
  isPlaying (removeFromPlaylist trackId s) = false /\
  currentTrack (removeFromPlaylist trackId s) = None.

(** [p] is the position the removed track is found at: the first one whose
    id is [trackId]. *)
Definition removed_position (trackId : Q) (tracks : list Track) (p : nat)
    : Prop :=
  (exists track, tracks !! p = Some track /\ hasId trackId track = true) /\
  (forall q other, (q < p)%nat -> tracks !! q = Some other ->
                   hasId trackId other = false).

(** The current index shifts down by one when the removed position is at or
    before it. *)
Definition removal_shifts (trackId : Q) (s : State) : Prop :=
  findIndex trackId (playlist s) <> -1 ->
  findIndex trackId (playlist s) <= currentTrackIndex s ->
  currentTrackIndex (removeFromPlaylist trackId s) = currentTrackIndex s - 1.

(** [seek] is a no-op when no track is loaded. *)
Definition seek_noop_without_track (time : Q) (s : State) : Prop :=
  currentTrack s = None -> seek time s = s.
End Spec.

(** ** Sample sessions *)

Module Sample.
Import Player.

Definition trackA : Track :=
  {| id := 5; name := "a.mp3"; url := "blob:a" |}.
Definition trackB : Track :=
  {| id := 6; name := "b.mp3"; url := "blob:b" |}.

(** Two tracks uploaded; they receive the ids [5] and [6]. *)
Definition two_tracks : State :=
  run [Mount; AddToPlaylist 4 1 trackA; AddToPlaylist 5 1 trackB] init.

(** The first of two tracks is playing. *)
Definition playing_first : State :=
  run [PlayTrack 0; LoadStart; LoadedMetadata 100; CanPlay; Play;
       PlayResolved; TimeUpdate 30] two_tracks.

(** The last of two tracks is playing. *)
Definition playing_last : State :=
  run [PlayTrack 1; LoadStart; LoadedMetadata 200; CanPlay; Play;
       PlayResolved; TimeUpdate 199] two_tracks.

(** A track was loaded and played, then the playlist was cleared. *)
Definition cleared : State := run [ClearPlaylist] playing_first.

(** A rounding to try the skips with: down to a multiple of [1/1024]. *)
Definition round_down (x : Q) : Q := (inject_Z (Qfloor (x * 1024)) / 1024)%Q.


(** A muted session. *)
Definition muted_session : State := run [Mount; ToggleMute; VolumeChange] init.
End Sample.

(** ** More of JavaScript's numbers and strings *)

Module JsMath.
(** [Math.trunc]: the integer part, towards zero. *)
Definition trunc (x : Q) : Z := Z.quot (Qnum x) (Zpos (Qden x)).

(** [x % y] on numbers: the remainder has the sign of [x]. *)
Definition rem (x y : Q) : Q := (x - y * inject_Z (trunc (x / y)))%Q.

(** [s.padStart(n, c)] for a one-character filler [c]. *)
Definition padStart (n : nat) (c : ascii) (s : string) : string :=
  string_of_list_ascii (replicate (n - String.length s) c) +:+ s.

(** The case folding of a regular expression with the [i] flag, on the
    letters [A] to [Z]. *)
Definition to_lower (c : ascii) : ascii :=
  let n := nat_of_ascii c in
  if ((65 <=? n) && (n <=? 90))%nat then ascii_of_nat (n + 32) else c.

Definition lower (s : string) : string :=
  string_of_list_ascii (to_lower <$> list_ascii_of_string s).

(** [s] ends with [suffix]. *)
Definition endsWith (suffix s : string) : bool :=
  (String.length suffix <=? String.length s)%nat &&
  String.eqb
    (String.substring (String.length s - String.length suffix)
       (String.length suffix) s)
    suffix.
End JsMath.

(** ** What the hook derives from its state *)

Module Derived.
Import Player.

(** [progress]: [duration > 0 ? (currentTime / duration) * 100 : 0]. *)
Definition progress (s : State) : Q :=
  if JsNum.Qlt_bool 0 (duration s)
  then (currentTime s / duration s * 100)%Q
  else 0%Q.

(** [formatTime(time)] of the hook; [None] is a [time] that is not a
    number.  Integers print in decimal. *)
Definition formatTime (time : option Q) : string :=
  match time with
  | None => "0:00"
  | Some time =>
      let minutes := Qfloor (time / 60) in
      let seconds := Qfloor (JsMath.rem time 60) in
      pretty minutes +:+ ":" +:+ JsMath.padStart 2 "0" (pretty seconds)
  end.
End Derived.

(** ** Audio utilities ([src/index.js], second part) *)

Module File.
(** The attributes of a [File] the utilities read. *)
Record t := {
  name : string;
  type : string;
  size : Z;
  lastModified : Z
}.
End File.

Module AudioUtils.

Definition supportedTypes : list string :=
  ["audio/mpeg"; "audio/mp3"; "audio/wav"; "audio/ogg"; "audio/aac";
   "audio/m4a"; "audio/webm"]%string.

(** The alternatives of [/\.(mp3|wav|ogg|aac|m4a|webm)$/i]. *)
Definition extensions : list string :=
  [".mp3"; ".wav"; ".ogg"; ".aac"; ".m4a"; ".webm"]%string.

(** [isAudioFile(file)]; [None] is a missing file. *)
Definition isAudioFile (file : option File.t) : bool :=
  match file with
  | None => false
  | Some file =>
      existsb (String.eqb (File.type file)) supportedTypes
      || existsb (fun ext => JsMath.endsWith ext (JsMath.lower (File.name file)))
           extensions
  end.

Definition maxSize : Z := 50 * 1024 * 1024.

(** [isValidFileSize(file)] on a file that is there. *)
Definition isValidFileSize (file : File.t) : bool :=
  File.size file <=? maxSize.

(** [formatTime(seconds)] of the utilities. *)
Definition formatTime (seconds : option Q) : string :=
  match seconds with
  | None => "00:00"
  | Some seconds =>
      if JsNum.Qlt_bool seconds 0 then "00:00"
      else
        let minutes := Qfloor (seconds / 60) in
        let remainingSeconds := Qfloor (JsMath.rem seconds 60) in
        JsMath.padStart 2 "0" (pretty minutes) +:+ ":" +:+
        JsMath.padStart 2 "0" (pretty remainingSeconds)
  end.

(** [calculateProgress(current, total)]; [None] is a [total] that is
    missing or not a number. *)
Definition calculateProgress (current : Q) (total : option Q) : Q :=
  match total with
  | None => 0%Q
  | Some total =>
      if Qeq_bool total 0 then 0%Q
      else Qmin 100 (Qmax 0 (current / total * 100))
  end.

(** [generateFileId(file)]; [now] is the value of [Date.now()]. *)
Definition generateFileId (now : Z) (file : File.t) : string :=
  File.name file +:+ "-" +:+ pretty (File.size file) +:+ "-" +:+
  pretty (File.lastModified file) +:+ "-" +:+ pretty now.

(** The metadata [extractMetadata] resolves with. *)
Record Metadata := {
  meta_name : string;
  meta_duration : Q;
  meta_size : Z;
  meta_type : string;
  meta_lastModified : Z
}.

(** An entry of [validFiles]. *)
Record ValidFile := {
  file : File.t;
  metadata : Metadata;
  id : string;
  url : string
}.

Section Validation.
(** What the browser contributes: the outcome of [await
    extractMetadata(file)] ([None] when it throws), the clock and the object
    URL of a file. *)
Variable extractMetadata : File.t -> option Metadata.
Variable now : File.t -> Z.
Variable createAudioUrl : File.t -> string.

(** One round of the loop of [validateAudioFiles]: the entry pushed to
    [validFiles], or the message pushed to [errors]. *)
Definition validateOne (f : File.t) : ValidFile + string :=
  if negb (isAudioFile (Some f)) then
    inr (File.name f +:+ ": Unsupported file format")
  else if negb (isValidFileSize f) then
    inr (File.name f +:+ ": File size too large (max 50MB)")
  else
    match extractMetadata f with
    | Some m =>
        inl {| file := f; metadata := m; id := generateFileId (now f) f;
               url := createAudioUrl f |}
    | None => inr (File.name f +:+ ": Failed to process file")
    end.

(** [validateAudioFiles(files)]: the pair [{ validFiles, errors }]. *)
Fixpoint validateAudioFiles (files : list File.t)
    : list ValidFile * list string :=
  match files with
  | [] => ([], [])
  | f :: rest =>
      let '(validFiles, errors) := validateAudioFiles rest in
      match validateOne f with
      | inl v => (v :: validFiles, errors)
      | inr e => (validFiles, e :: errors)
      end
  end.

(** The files that end up in [validFiles]. *)
Definition accepted (f : File.t) : bool :=
  isAudioFile (Some f) && isValidFileSize f
  && bool_decide (is_Some (extractMetadata f)).
End Validation.
End AudioUtils.

(** ** Invariants of the hook *)

Module Invariant.
Import Player.

(** The current index is never negative. *)
Definition index_ok (s : State) : Prop := 0 <= currentTrackIndex s.

(** The element holds the url of the loaded track. *)
Definition source_ok (s : State) : Prop :=
  match currentTrack s with
  | Some track => Audio.src <$> audioRef s = Some (url track)
  | None => True
  end.

(** The playback rate is within [[0.25, 4]]; the volume of the session is
    that of the element (that of a new element as long as there is none);
    the rate of the element is that of the session, or the default rate a
    load has put it back to. *)
Definition mirror_ok (s : State) : Prop :=
  (1 # 4 <= playbackRate s <= 4)%Q /\
  match audioRef s with
  | Some audio =>
      Audio.volume audio = volume s /\
      (Audio.playbackRate audio = playbackRate s \/
       Audio.playbackRate audio = Audio.defaultPlaybackRate)
  | None => volume s = 1%Q
  end.

(** The next index of the linear policy, [k] times over. *)
Definition nextLinear_iter (total : Z) (k : nat) (start : Z) : option Z :=
  Nat.iter k (fun current => current ≫= fun c => Utils.nextLinear c total)
    (Some start).
End Invariant.

(** * Properties *)

(** ** What [loadTrack] leaves alone *)

Section LoadTrackFrame.
Import Player.

Lemma loadTrack_index (track : option Track) (s : State) :
  currentTrackIndex (loadTrack track s) = currentTrackIndex s.
Proof. unfold loadTrack. destruct (audioRef s), track; reflexivity. Qed.
End LoadTrackFrame.

(** ** Navigation policy *)

Section Navigation.
Import Utils.

Lemma nextLinear_rem (current total : Z) :
  total <> 0 -> nextLinear current total = Some (Z.rem (current + 1) total).
Proof.
  intros Hne. unfold nextLinear, getNextTrackIndex.
  destruct (Z.eqb_spec total 0) as [->|_]; [congruence|reflexivity].
Qed.

Lemma nextLinear_empty (current : Z) : nextLinear current 0 = Some (-1).
Proof. reflexivity. Qed.

Lemma previousLinear_nonempty (current total : Z) :
  total <> 0 ->
  previousLinear current total =
    Some (if current =? 0 then total - 1 else current - 1).
Proof.
  intros Hne. unfold previousLinear, getPreviousTrackIndex.
  destruct (Z.eqb_spec total 0) as [->|_]; [congruence|reflexivity].
Qed.

(** JavaScript's remainder is the mathematical one on the indices a
    playlist can hold: from [-1] (no selection) upwards. *)
Lemma rem_succ_mod (current total : Z) :
  -1 <= current -> 0 < total ->
  Z.rem (current + 1) total = (current + 1) mod total.
Proof. intros Hc Ht. apply Z.rem_mod_nonneg; lia. Qed.

(** The index [playNext] selects, whether or not the element exists. *)
Lemma playNext_index (s : Player.State) :
  let total := Z.of_nat (length (Player.playlist s)) in
  0 <= Player.currentTrackIndex s ->
  total <> 0 ->
  Player.currentTrackIndex (Player.playNext s) =
    Z.rem (Player.currentTrackIndex s + 1) total.
Proof.
  intros total Hc Hne. unfold Player.playNext. fold total.
  destruct (Z.eqb_spec total 0) as [|_]; [contradiction|].
  assert (Hrange : 0 <= Z.rem (Player.currentTrackIndex s + 1) total < total).
  { rewrite Z.rem_mod_nonneg by lia. apply Z.mod_pos_bound. lia. }
  unfold Player.playTrack. fold total.
  destruct (Z.ltb_spec (Z.rem (Player.currentTrackIndex s + 1) total) 0); [lia|].
  destruct (Z.geb_spec (Z.rem (Player.currentTrackIndex s + 1) total) total); [lia|].
  cbn [orb]. rewrite loadTrack_index. reflexivity.
Qed.
End Navigation.

(** C5.  In linear mode the next index is [-1] on an empty playlist and
    [(current + 1) mod length] otherwise, for every length and every current
    index a playlist can hold ([-1] for no selection, or a position); after
    the last track it is [0].  [playNext] of the hook computes the same
    index. *)
Theorem nextIndex_linear (current total : Z) :
  -1 <= current -> 0 <= total ->
  (total = 0 -> Utils.nextLinear current total = Some (-1)) /\
  (total <> 0 ->
     Utils.nextLinear current total = Some ((current + 1) mod total)) /\
  (total <> 0 -> Utils.nextLinear (total - 1) total = Some 0) /\
  (forall s : Player.State,
     Player.currentTrackIndex s = current ->
     Z.of_nat (length (Player.playlist s)) = total ->
     0 <= current -> total <> 0 ->
     Some (Player.currentTrackIndex (Player.playNext s)) =
       Utils.nextLinear current total).
Proof.
  intros Hc Ht. repeat split.
  - intros ->. apply nextLinear_empty.
  - intros Hne. rewrite nextLinear_rem by assumption.
    rewrite rem_succ_mod by lia. reflexivity.
  - intros Hne. rewrite nextLinear_rem by assumption.
    replace (total - 1 + 1) with total by lia.
    rewrite Z.rem_same by assumption. reflexivity.
  - intros s Hidx Hlen Hc0 Hne. rewrite nextLinear_rem by assumption.
    subst current total. rewrite playNext_index by assumption. reflexivity.
Qed.

Lemma nextIndex_linear_witness :
  Utils.nextLinear 2 3 = Some ((2 + 1) mod 3).
Proof.
  refine (proj1 (proj2 (nextIndex_linear 2 3 _ _)) _); lia.
Defined.

(** C6.  On a non-empty playlist, from any position, the previous index of
    the next index is the position itself (linear mode). *)
Theorem next_previous_roundtrip (current total : Z) :
  1 <= total -> 0 <= current < total ->
  exists next,
    Utils.nextLinear current total = Some next /\
    Utils.previousLinear next total = Some current.
Proof.
  intros Ht Hc. exists ((current + 1) mod total). split.
  - rewrite nextLinear_rem by lia. rewrite rem_succ_mod by lia. reflexivity.
  - rewrite previousLinear_nonempty by lia. f_equal.
    destruct (Z.eq_dec current (total - 1)) as [->|Hlast].
    + replace (total - 1 + 1) with total by lia.
      rewrite Z.mod_same by lia. reflexivity.
    + rewrite Z.mod_small by lia.
      destruct (Z.eqb_spec (current + 1) 0); lia.
Qed.

Lemma next_previous_roundtrip_witness :
  exists next,
    Utils.nextLinear 2 3 = Some next /\ Utils.previousLinear next 3 = Some 2.
Proof. apply (next_previous_roundtrip 2 3); lia. Defined.

(** ** Shuffle *)

Section ArrayFacts.
Context {A : Type}.
Variable undefined : A.
Import JsArray.

Lemma js_get_lookup (a : list A) (n : nat) (x : A) :
  a !! n = Some x -> js_get undefined a (Z.of_nat n) = x.
Proof.
  intros Hx. unfold js_get.
  destruct (Z.ltb_spec (Z.of_nat n) 0) as [Hneg|_]; [lia|].
  rewrite Nat2Z.id, Hx. reflexivity.
Qed.

Lemma js_set_insert (a : list A) (n : nat) (v : A) :
  (n < length a)%nat -> js_set undefined a (Z.of_nat n) v = <[n := v]> a.
Proof.
  intros Hn. unfold js_set.
  destruct (Z.ltb_spec (Z.of_nat n) 0) as [Hneg|_]; [lia|].
  rewrite Nat2Z.id.
  destruct (Nat.ltb_spec n (length a)) as [_|Hge]; [reflexivity|lia].
Qed.
End ArrayFacts.

Section ShuffleFacts.
Context {A : Type}.
Variable undefined : A.
Variable random : nat -> Q.
(** [Math.random()] returns a number in [[0, 1)]. *)
Hypothesis random_unit : forall k, (0 <= random k < 1)%Q.
Import Utils.

(** The drawn position lies in [[0, i]]. *)
Lemma draw_range (k i : nat) : 0 <= draw random k i <= Z.of_nat i.
Proof.
  destruct (random_unit k) as [Hlo Hhi]. unfold draw.
  set (m := Z.of_nat i + 1).
  assert (Hm : (0 < inject_Z m)%Q).
  { change 0%Q with (inject_Z 0). rewrite <- Zlt_Qlt. subst m. lia. }
  split.
  - change 0 with (Qfloor 0). apply Qfloor_resp_le.
    apply Qmult_le_0_compat; [assumption | apply Qlt_le_weak; assumption].
  - cut (Qfloor (random k * inject_Z m) < m); [subst m; lia|].
    rewrite Zlt_Qlt.
    apply Qle_lt_trans with (random k * inject_Z m)%Q; [apply Qfloor_le|].
    rewrite <- (Qmult_1_l (inject_Z m)) at 2.
    apply Qmult_lt_compat_r; assumption.
Qed.

(** One round of the loop exchanges two cells of the array. *)
Lemma swap_round (k i : nat) (a : list A) :
  (i < length a)%nat ->
  let j := draw random k i in
  let sj := JsArray.js_get undefined a j in
  let si := JsArray.js_get undefined a (Z.of_nat i) in
  let a' := JsArray.js_set undefined
              (JsArray.js_set undefined a (Z.of_nat i) sj) j si in
  a' ≡ₚ a /\ length a' = length a.
Proof.
  intros Hi j sj si a'.
  pose proof (draw_range k i) as Hj. fold j in Hj.
  assert (Hnj : (Z.to_nat j < length a)%nat) by lia.
  destruct (lookup_lt_is_Some_2 a i Hi) as [x Hx].
  destruct (lookup_lt_is_Some_2 a (Z.to_nat j) Hnj) as [y Hy].
  assert (Hsi : si = x) by (apply js_get_lookup; assumption).
  assert (Hsj : sj = y).
  { subst sj. rewrite <- (Z2Nat.id j) by lia. apply js_get_lookup; assumption. }
  assert (Ha' : a' = <[Z.to_nat j := x]> (<[i := y]> a)).
  { subst a'. rewrite Hsi, Hsj.
    rewrite (js_set_insert undefined a i y Hi).
    rewrite <- (Z2Nat.id j) at 1 by lia.
    apply js_set_insert. rewrite length_insert. assumption. }
  rewrite Ha'. split.
  - apply Permutation_insert_swap; assumption.
  - rewrite !length_insert. reflexivity.
Qed.

Lemma shuffle_loop_permutation (i k : nat) (a : list A) :
  (i < length a)%nat ->
  shuffle_loop undefined random k i a ≡ₚ a.
Proof.
  revert k a. induction i as [|i IH]; intros k a Hi; [reflexivity|].
  cbn [shuffle_loop].
  destruct (swap_round k (S i) a Hi) as [Hperm Hlen].
  cbv zeta in Hperm, Hlen.
  etransitivity; [apply IH; rewrite Hlen; lia | exact Hperm].
Qed.

(** The shuffle of any array is a rearrangement of it. *)
Lemma shuffleArray_permutation (array : list A) :
  shuffleArray undefined random array ≡ₚ array.
Proof.
  unfold shuffleArray. destruct array as [|x array]; [reflexivity|].
  apply shuffle_loop_permutation. cbn [length]. lia.
Qed.
End ShuffleFacts.

(** C9.  Whatever [Math.random()] returns within [[0, 1)], shuffling the
    array of the indices [0 .. length - 1] yields a rearrangement of it: the
    output has the same length and holds every index of [[0, length)]
    exactly once, and nothing else. *)
Theorem shuffleArray_bijection (undefined : Z) (random : nat -> Q) (n : nat) :
  (forall k, (0 <= random k < 1)%Q) ->
  let indices := seqZ 0 (Z.of_nat n) in
  let shuffled := Utils.shuffleArray undefined random indices in
  shuffled ≡ₚ indices /\
  length shuffled = n /\
  NoDup shuffled /\
  (forall i, i ∈ shuffled <-> 0 <= i < Z.of_nat n) /\
  (forall i, 0 <= i < Z.of_nat n -> count_occ Z.eq_dec shuffled i = 1%nat).
Proof.
  intros Hrandom indices shuffled.
  assert (Hperm : shuffled ≡ₚ indices)
    by (apply shuffleArray_permutation; assumption).
  assert (Hnodup : NoDup shuffled).
  { rewrite Hperm. apply NoDup_seqZ. }
  assert (Hmem : forall i, i ∈ shuffled <-> 0 <= i < Z.of_nat n).
  { intros i. rewrite Hperm. unfold indices. rewrite elem_of_seqZ. lia. }
  split; [exact Hperm|]. split.
  { rewrite Hperm. unfold indices. rewrite length_seqZ. lia. }
  split; [exact Hnodup|]. split; [exact Hmem|].
  intros i Hi.
  apply (proj1 (List.NoDup_count_occ' Z.eq_dec shuffled)).
  - apply NoDup_ListNoDup. exact Hnodup.
  - apply list_elem_of_In. apply Hmem. exact Hi.
Qed.

Lemma shuffleArray_bijection_witness :
  Utils.shuffleArray (-1) (fun k => if Nat.even k then 3 # 4 else 1 # 3)%Q
    (seqZ 0 (Z.of_nat 4)) ≡ₚ seqZ 0 (Z.of_nat 4).
Proof.
  refine (proj1 (shuffleArray_bijection (-1)
            (fun k => if Nat.even k then 3 # 4 else 1 # 3)%Q 4 _)).
  intros k. destruct (Nat.even k); split; unfold Qle, Qlt; simpl; lia.
Defined.

(** ** Selecting a track *)

Section PlayTrackFacts.
Import Player.

(** Reading a position of the playlist. *)
Lemma playlist_get (tracks : list Track) (n : nat) (track : Track) :
  tracks !! n = Some track ->
  JsArray.js_get None (Some <$> tracks) (Z.of_nat n) = Some track.
Proof.
  intros Hn. apply js_get_lookup. rewrite list_lookup_fmap, Hn. reflexivity.
Qed.

(** Within range [playTrack] records the index and loads the track. *)
Lemma playTrack_in_range (n : nat) (track : Track) (s : State) :
  playlist s !! n = Some track ->
  playTrack (Z.of_nat n) s =
    loadTrack (Some track) (setCurrentTrackIndex (Z.of_nat n) s).
Proof.
  intros Hn. unfold playTrack.
  pose proof (lookup_lt_Some _ _ _ Hn) as Hlt.
  destruct (Z.ltb_spec (Z.of_nat n) 0); [lia|].
  destruct (Z.geb_spec (Z.of_nat n) (Z.of_nat (length (playlist s)))); [lia|].
  cbn [orb]. rewrite (playlist_get _ _ _ Hn). reflexivity.
Qed.

(** What a load leaves behind on a mounted hook. *)
Lemma loadTrack_mounted (track : Track) (audio : Audio.t) (s : State) :
  audioRef s = Some audio ->
  let s' := loadTrack (Some track) s in
  currentTrack s' = Some track /\
  (exists audio', audioRef s' = Some audio' /\
                  Audio.src audio' = url track /\
                  Audio.paused audio' = true) /\
  isPlaying s' = false /\
  error s' = None /\
  isLoading s' = isLoading s /\
  duration s' = duration s.
Proof.
  intros Ha. unfold loadTrack. rewrite Ha. cbn.
  repeat split. eexists. repeat split.
Qed.
End PlayTrackFacts.

(** C10.  An index below [0] or at or past the length of the playlist makes
    [playTrack] return at once: the whole state of the hook, and with it the
    current track, the current index, the playlist, the transport flags and
    the element, is what it was. *)
Theorem playTrack_out_of_range (trackIndex : Z) (s : Player.State) :
  trackIndex < 0 \/ Z.of_nat (length (Player.playlist s)) <= trackIndex ->
  Player.playTrack trackIndex s = s.
Proof.
  intros Hout. unfold Player.playTrack.
  destruct (Z.ltb_spec trackIndex 0) as [_|Hnonneg]; [reflexivity|].
  destruct (Z.geb_spec trackIndex (Z.of_nat (length (Player.playlist s))))
    as [_|Hlt]; [reflexivity|lia].
Qed.

Lemma playTrack_out_of_range_witness :
  Player.playTrack 2 Sample.playing_first = Sample.playing_first /\
  Player.playTrack (-1) Sample.playing_first = Sample.playing_first.
Proof.
  split.
  - apply (playTrack_out_of_range 2 Sample.playing_first).
    right. vm_compute. discriminate.
  - apply (playTrack_out_of_range (-1) Sample.playing_first).
    left. lia.
Defined.

(** ** Playlist store *)

(** C3, as the specification words it, fails: a track whose id is already in
    the playlist is appended all the same, where the specification's [add]
    fails with [DuplicateIdError]; here even the generated id, [4 + 1],
    repeats the id [5] of the track already present. *)
Lemma addToPlaylist_accepts_duplicate :
  let s := Player.addToPlaylist 4 1 Sample.trackA Sample.two_tracks in
  Spec.add Sample.trackA (Player.playlist Sample.two_tracks)
    = Spec.DuplicateIdError /\
  Player.playlist s
    = Player.playlist Sample.two_tracks ++ [Sample.trackA] /\
  Spec.add Sample.trackA (Player.playlist Sample.two_tracks)
    <> Spec.Added (Player.playlist s).
Proof. vm_compute. repeat split. discriminate. Qed.

(** C3, amended.  [addToPlaylist] never fails and checks no id: the track,
    its id replaced by the generated [Date.now() + Math.random()], becomes
    the last entry; the entries already present keep their positions; no
    other piece of state changes. *)
Theorem addToPlaylist_appends (now rnd : Q) (track : Player.Track)
    (s : Player.State) :
  let s' := Player.addToPlaylist now rnd track s in
  let added := Player.withFreshId now rnd track in
  Player.playlist s' = Player.playlist s ++ [added] /\
  length (Player.playlist s') = S (length (Player.playlist s)) /\
  (forall n old, Player.playlist s !! n = Some old ->
                 Player.playlist s' !! n = Some old) /\
  Player.playlist s' !! length (Player.playlist s) = Some added /\
  Player.id added = (now + rnd)%Q /\
  Player.name added = Player.name track /\
  Player.url added = Player.url track /\
  s' = Player.setPlaylist (Player.playlist s ++ [added]) s.
Proof.
  cbn zeta. unfold Player.addToPlaylist. cbn [Player.playlist Player.setPlaylist].
  split; [reflexivity|]. split.
  { rewrite length_app. cbn. lia. }
  split.
  { intros n old Hn. apply lookup_app_l_Some. exact Hn. }
  split.
  { rewrite lookup_app_r by lia. rewrite Nat.sub_diag. reflexivity. }
  repeat split.
Qed.

(** ** Auto-advance *)

(** C1, as the specification words it, fails: when the last of two tracks
    ends, nothing is loaded; the index stays on the last track instead of
    wrapping to [0]. *)
Lemma handleEnded_stops_at_last :
  (1 < length (Player.playlist Sample.playing_last))%nat /\
  Player.currentTrackIndex Sample.playing_last = 1 /\
  ~ Spec.auto_advances Sample.playing_last.
Proof.
  split; [vm_compute; lia|]. split; [reflexivity|].
  intros (next & track & Hnext & _ & Hindex & _).
  vm_compute in Hnext, Hindex. congruence.
Qed.

(** Whatever the playlist holds, the handler of [ended] leaves the playing
    flag cleared: [playNext] loads, and [play] is not called. *)
Lemma handleEnded_not_playing (s : Player.State) :
  Player.isPlaying (Player.handleEnded s) = false.
Proof.
  unfold Player.handleEnded, Player.playNext, Player.playTrack,
    Player.loadTrack.
  cbn. repeat (case_match; cbn); reflexivity.
Qed.

(** C1, amended.  When a track ends the position is reset and the playing
    flag cleared, in either case below.  If the current index is not the
    last one, the next index of the linear policy, [index + 1], becomes
    current and that track is loaded into the element.  If it is the last
    one (or the playlist is empty) nothing is loaded: the hook does not wrap
    around on its own. *)
Theorem handleEnded_advances (s : Player.State) (audio : Audio.t) :
  Player.audioRef s = Some audio ->
  0 <= Player.currentTrackIndex s ->
  let total := Z.of_nat (length (Player.playlist s)) in
  let s' := Player.handleEnded s in
  (Player.currentTrackIndex s < total - 1 ->
     Spec.auto_advances s /\
     Player.currentTrackIndex s' = Player.currentTrackIndex s + 1 /\
     Player.currentTime s' = 0%Q /\
     Player.isPlaying s' = false /\
     exists track audio',
       Player.playlist s !! Z.to_nat (Player.currentTrackIndex s + 1)
         = Some track /\
       Player.currentTrack s' = Some track /\
       Player.audioRef s' = Some audio' /\
       Audio.src audio' = Player.url track) /\
  (total - 1 <= Player.currentTrackIndex s ->
     s' = Player.setCurrentTime 0%Q (Player.setIsPlaying false s)).
Proof.
  intros Haudio Hidx total s'. split.
  - intros Hnotlast.
    set (n := Z.to_nat (Player.currentTrackIndex s + 1)).
    assert (Hn : Z.of_nat n = Player.currentTrackIndex s + 1) by (subst n; lia).
    assert (Hlt : (n < length (Player.playlist s))%nat) by lia.
    destruct (lookup_lt_is_Some_2 _ _ Hlt) as [track Htrack].
    assert (Hs' : s' = Player.loadTrack (Some track)
                         (Player.setCurrentTrackIndex (Z.of_nat n)
                            (Player.setCurrentTime 0%Q
                               (Player.setIsPlaying false s)))).
    { subst s'. unfold Player.handleEnded. fold total.
      destruct (Z.ltb_spec 0 total); [|lia].
      destruct (Z.ltb_spec (Player.currentTrackIndex s) (total - 1)); [|lia].
      cbn [andb]. unfold Player.playNext.
      cbn [Player.playlist Player.currentTrackIndex Player.setCurrentTime
           Player.setIsPlaying]. fold total.
      destruct (Z.eqb_spec total 0); [lia|].
      rewrite Z.rem_small by lia. rewrite <- Hn.
      apply playTrack_in_range. exact Htrack. }
    destruct (loadTrack_mounted track audio
                (Player.setCurrentTrackIndex (Z.of_nat n)
                   (Player.setCurrentTime 0%Q (Player.setIsPlaying false s))))
      as (Hcur & (audio' & Ha' & Hsrc & _) & _); [exact Haudio|].
    rewrite <- Hs' in Hcur, Ha'.
    assert (Hindex : Player.currentTrackIndex s' = Player.currentTrackIndex s + 1).
    { rewrite Hs', loadTrack_index. cbn. exact Hn. }
    split; [|split; [exact Hindex|split; [|split]]].
    + exists (Player.currentTrackIndex s + 1), track. fold total s'.
      split; [|split; [|split; assumption]].
      * rewrite nextLinear_rem by lia. rewrite Z.rem_small by lia. reflexivity.
      * rewrite <- Hn. apply playlist_get. exact Htrack.
    + rewrite Hs'. unfold Player.loadTrack. cbn. rewrite Haudio. reflexivity.
    + rewrite Hs'. unfold Player.loadTrack. cbn. rewrite Haudio. reflexivity.
    + exists track, audio'. repeat split; assumption.
  - intros Hlast. subst s'. unfold Player.handleEnded. fold total.
    destruct (Z.ltb_spec (Player.currentTrackIndex s) (total - 1)); [lia|].
    rewrite andb_false_r. reflexivity.
Qed.

Lemma handleEnded_advances_witness :
  Spec.auto_advances Sample.playing_first /\
  Player.handleEnded Sample.playing_last
    = Player.setCurrentTime 0%Q (Player.setIsPlaying false Sample.playing_last).
Proof.
  split.
  - refine (proj1 (proj1 (handleEnded_advances Sample.playing_first _
                            eq_refl _) _)).
    + vm_compute. discriminate.
    + vm_compute. reflexivity.
  - refine (proj2 (handleEnded_advances Sample.playing_last _ eq_refl _) _).
    + vm_compute. discriminate.
    + vm_compute. discriminate.
Defined.

(** ** Removing a track *)

Section RemovalFacts.
Import Player.

(** [findIndex] returns the first position holding the id. *)
Lemma findIndex_found (trackId : Q) (tracks : list Track) (p : nat) :
  Spec.removed_position trackId tracks p ->
  findIndex trackId tracks = Z.of_nat p.
Proof.
  revert p. induction tracks as [|track rest IH]; intros p [[t [Hp Ht]] Hfirst].
  - rewrite lookup_nil in Hp. discriminate.
  - cbn [findIndex]. destruct p as [|p].
    + cbn in Hp. injection Hp as ->. rewrite Ht. reflexivity.
    + rewrite (Hfirst 0%nat track) by (reflexivity || lia).
      rewrite (IH p).
      * destruct (Z.eqb_spec (Z.of_nat p) (-1)); lia.
      * split; [exists t; split; assumption|].
        intros q other Hq Hother. apply (Hfirst (S q) other); [lia|exact Hother].
Qed.

(** It returns [-1] when no track holds the id; the filter then keeps
    the whole playlist. *)
Lemma findIndex_absent (trackId : Q) (tracks : list Track) :
  (forall track, track ∈ tracks -> hasId trackId track = false) ->
  findIndex trackId tracks = -1 /\
  List.filter (fun track => negb (hasId trackId track)) tracks = tracks.
Proof.
  induction tracks as [|track rest IH]; intros Hnone; [split; reflexivity|].
  cbn [findIndex List.filter].
  rewrite (Hnone track) by (apply list_elem_of_here).
  destruct IH as [-> ->].
  - intros other Hother. apply Hnone. apply list_elem_of_further. exact Hother.
  - split; reflexivity.
Qed.

Lemma setPlaylist_same (s : State) : setPlaylist (playlist s) s = s.
Proof. destruct s; reflexivity. Qed.
End RemovalFacts.

(** C2, as the specification words it, fails: the first of two tracks is
    loaded and playing at index [0]; removing it leaves it loaded and
    playing, and the index stays [0] instead of moving down by one. *)
Lemma removeFromPlaylist_keeps_playing :
  Player.currentTrack Sample.playing_first = Some Sample.trackA /\
  Player.isPlaying Sample.playing_first = true /\
  ~ Spec.removal_empties 5 Sample.playing_first /\
  ~ Spec.removal_shifts 5 Sample.playing_first.
Proof.
  split; [reflexivity|]. split; [reflexivity|]. split.
  - intros [Hplaying _]. vm_compute in Hplaying. discriminate.
  - intros Hshift. unfold Spec.removal_shifts in Hshift.
    vm_compute in Hshift.
    assert (H : 0 = -1) by (apply Hshift; discriminate). discriminate.
Qed.

(** C2, amended.  [removeFromPlaylist] drops every track with the id from
    the playlist, the remaining tracks keeping their order and number (the
    new playlist is the old one filtered), and touches neither the loaded
    track, nor the playing flag, nor the element: playback is not
    stopped.  When the removed position is
    at or before the current index, the index becomes [max 0 (index - 1)]:
    one less, except that it stays [0] at [0].  When the removed
    position is after the current index the index is kept, and when no track
    has the id nothing changes. *)
Theorem removeFromPlaylist_bookkeeping (trackId : Q) (s : Player.State) :
  let s' := Player.removeFromPlaylist trackId s in
  (Player.isPlaying s' = Player.isPlaying s /\
   Player.currentTrack s' = Player.currentTrack s /\
   Player.audioRef s' = Player.audioRef s /\
   Player.currentTime s' = Player.currentTime s /\
   Player.duration s' = Player.duration s) /\
  (Player.playlist s' =
     List.filter (fun track => negb (Player.hasId trackId track))
       (Player.playlist s) /\
   forall track, track ∈ Player.playlist s' <->
     track ∈ Player.playlist s /\ Player.hasId trackId track = false) /\
  (forall p, Spec.removed_position trackId (Player.playlist s) p ->
     Z.of_nat p <= Player.currentTrackIndex s ->
     Player.currentTrackIndex s' = Z.max 0 (Player.currentTrackIndex s - 1)) /\
  (forall p, Spec.removed_position trackId (Player.playlist s) p ->
     Player.currentTrackIndex s < Z.of_nat p ->
     Player.currentTrackIndex s' = Player.currentTrackIndex s) /\
  ((forall track, track ∈ Player.playlist s ->
      Player.hasId trackId track = false) ->
   s' = s).
Proof.
  intros s'. subst s'. unfold Player.removeFromPlaylist.
  set (removedIndex := Player.findIndex trackId (Player.playlist s)).
  split; [|split; [|split; [|split]]].
  - destruct (negb (removedIndex =? -1)
              && (removedIndex <=? Player.currentTrackIndex s));
      repeat split.
  - assert (Hfilter :
      Player.playlist
        (Player.setPlaylist
           (List.filter (fun track => negb (Player.hasId trackId track))
              (Player.playlist s))
           (if negb (removedIndex =? -1)
               && (removedIndex <=? Player.currentTrackIndex s)
            then Player.setCurrentTrackIndex
                   (Z.max 0 (Player.currentTrackIndex s - 1)) s
            else s))
      = List.filter (fun track => negb (Player.hasId trackId track))
          (Player.playlist s)) by reflexivity.
    split; [exact Hfilter|]. intros track. rewrite Hfilter.
    rewrite !list_elem_of_In, List.filter_In, negb_true_iff. reflexivity.
  - intros p Hp Hle. pose proof (findIndex_found _ _ _ Hp) as Hfound.
    fold removedIndex in Hfound. rewrite Hfound.
    destruct (Z.eqb_spec (Z.of_nat p) (-1)); [lia|].
    destruct (Z.leb_spec (Z.of_nat p) (Player.currentTrackIndex s)); [|lia].
    reflexivity.
  - intros p Hp Hgt. pose proof (findIndex_found _ _ _ Hp) as Hfound.
    fold removedIndex in Hfound. rewrite Hfound.
    destruct (Z.leb_spec (Z.of_nat p) (Player.currentTrackIndex s)); [lia|].
    rewrite andb_false_r. reflexivity.
  - intros Hnone. destruct (findIndex_absent _ _ Hnone) as [Habsent Hfilter].
    subst removedIndex. rewrite Habsent, Hfilter. cbn [Z.eqb negb andb].
    apply setPlaylist_same.
Qed.

Lemma removeFromPlaylist_bookkeeping_witness :
  Player.currentTrackIndex (Player.removeFromPlaylist 5 Sample.playing_last)
    = Z.max 0 (Player.currentTrackIndex Sample.playing_last - 1).
Proof.
  refine (proj1 (proj2 (proj2
            (removeFromPlaylist_bookkeeping 5 Sample.playing_last))) 0%nat _ _).
  - split.
    + exists Sample.trackA. split; reflexivity.
    + intros q other Hq. lia.
  - vm_compute. discriminate.
Defined.

(** ** Superseded loads *)

Section SupersededFacts.
Import Player Browser.
Variable resourceDuration : string -> Q.









End SupersededFacts.



(** ** Seeking *)

(** C7, as the specification words it, fails: once a playlist whose track
    had a duration of 100 seconds is cleared, no track is loaded, yet
    [seek(50)] moves the position to 50. *)
Lemma seek_without_track_moves :
  Player.currentTrack Sample.cleared = None /\
  Player.currentTime Sample.cleared = 0%Q /\
  Player.currentTime (Player.seek 50 Sample.cleared) = 50%Q /\
  ~ Spec.seek_noop_without_track 50 Sample.cleared.
Proof.
  split; [reflexivity|]. split; [reflexivity|]. split; [reflexivity|].
  intros Hnoop. specialize (Hnoop eq_refl).
  apply (f_equal Player.currentTime) in Hnoop.
  vm_compute in Hnoop. discriminate.
Qed.

(** C7, amended.  [seek] returns for every time, negative and large ones
    included.  It is a no-op when the element does not exist.  Otherwise,
    the duration held by the hook being non-negative, the position of the
    hook and of the element becomes [max 0 (min time duration)], which lies
    in [[0, duration]]: [0] for a time at or below [0], the duration for a
    time at or above it, the time itself in between; with a duration of [0]
    (nothing known yet) the position becomes [0].  Whether a track is loaded
    is not looked at: the duration remembered from the last metadata is
    used. *)
Theorem seek_clamps (time : Q) (s : Player.State) :
  (0 <= Player.duration s)%Q ->
  let s' := Player.seek time s in
  (Player.audioRef s = None -> s' = s) /\
  (forall audio, Player.audioRef s = Some audio ->
     (0 <= Player.currentTime s' <= Player.duration s')%Q /\
     Player.currentTime s' = Qmax 0 (Qmin time (Player.duration s)) /\
     Player.audioRef s'
       = Some (Audio.with_CurrentTime (Player.currentTime s') audio) /\
     Player.duration s' = Player.duration s /\
     Player.currentTrack s' = Player.currentTrack s /\
     Player.isPlaying s' = Player.isPlaying s /\
     (time <= 0 -> Player.currentTime s' == 0)%Q /\
     (Player.duration s <= time -> Player.currentTime s' == Player.duration s)%Q /\
     (0 <= time <= Player.duration s -> Player.currentTime s' == time)%Q /\
     (Player.duration s == 0 -> Player.currentTime s' == 0)%Q).
Proof.
  intros Hd s'. subst s'. unfold Player.seek. split.
  - intros ->. reflexivity.
  - intros audio ->. cbn.
    set (d := Player.duration s) in *.
    assert (Hmin : (Qmin time d <= d)%Q) by apply Q.le_min_r.
    split; [|repeat split].
    + split; [apply Q.le_max_l | apply Q.max_lub; assumption].
    + intros Ht. apply Q.max_l.
      apply Qle_trans with time; [apply Q.le_min_l | exact Ht].
    + intros Ht. rewrite (Q.min_r time d Ht). apply Q.max_r. exact Hd.
    + intros [Hlo Hhi]. rewrite (Q.min_l time d Hhi). apply Q.max_r. exact Hlo.
    + intros Hzero. apply Qle_antisym; [|apply Q.le_max_l].
      apply Q.max_lub; [apply Qle_refl|].
      rewrite <- Hzero. exact Hmin.
Qed.

Lemma seek_clamps_witness :
  (0 <= Player.currentTime (Player.seek 500 Sample.playing_first)
     <= Player.duration (Player.seek 500 Sample.playing_first))%Q.
Proof.
  refine (proj1 (proj2 (seek_clamps 500 Sample.playing_first _) _ eq_refl)).
  vm_compute. discriminate.
Defined.

(** ** Volume and mute *)

Section VolumeFacts.
Import Player.

Lemma Qlt_bool_iff (x y : Q) : JsNum.Qlt_bool x y = true <-> (x < y)%Q.
Proof.
  unfold JsNum.Qlt_bool. rewrite negb_true_iff.
  destruct (Qle_bool y x) eqn:Hle.
  - apply Qle_bool_iff in Hle. split; [discriminate|].
    intros Hlt. exfalso. exact (Qlt_not_le _ _ Hlt Hle).
  - split; [|reflexivity]. intros _. apply Qnot_le_lt.
    intros Hyx. apply Qle_bool_iff in Hyx. congruence.
Qed.

(** [Math.max(0, Math.min(1, v))] lies in [[0, 1]]. *)
Lemma clamp_unit (v : Q) : (0 <= Qmax 0 (Qmin 1 v) <= 1)%Q.
Proof.
  split; [apply Q.le_max_l|].
  apply Q.max_lub; [discriminate | apply Q.le_min_l].
Qed.

Lemma clamp_values (v : Q) :
  let clamped := Qmax 0 (Qmin 1 v) in
  (v <= 0 -> clamped == 0)%Q /\
  (1 <= v -> clamped == 1)%Q /\
  (0 <= v <= 1 -> clamped == v)%Q.
Proof.
  cbv zeta. split; [|split].
  - intros Hv. apply Q.max_l.
    apply Qle_trans with v; [apply Q.le_min_r|exact Hv].
  - intros Hv. rewrite (Q.min_l 1 v Hv). apply Q.max_r. discriminate.
  - intros [Hlo Hhi]. rewrite (Q.min_r 1 v Hhi). apply Q.max_r. exact Hlo.
Qed.

Lemma keeps_volume_ok (s s' : State) :
  keeps_volume s s' -> volume_ok s -> volume_ok s'.
Proof.
  intros (Hv & Hm & Ha) [Hvol Haudio]. unfold volume_ok.
  rewrite Hv, Hm. split; [exact Hvol|].
  destruct (audioRef s) as [audio|], (audioRef s') as [audio'|];
    cbn in Ha; try discriminate; [|exact Haudio].
  injection Ha as ->. exact Haudio.
Qed.

Lemma changeVolume_volume_ok (newVolume : Q) (s : State) :
  volume_ok s -> volume_ok (changeVolume newVolume s).
Proof.
  intros [Hv Ha]. unfold changeVolume, volume_ok.
  destruct (audioRef s) as [audio|] eqn:Haudio.
  - pose proof (clamp_unit newVolume) as Hclamp.
    destruct (JsNum.Qlt_bool 0 (Qmax 0 (Qmin 1 newVolume)) && isMuted s);
      cbn; split; exact Hclamp.
  - rewrite Haudio. split; assumption.
Qed.

Ltac frame_volume :=
  unfold keeps_volume, deliver, advance, togglePlayPause, clearPlaylist,
    skipForward, skipBackward, handleEnded, playPrevious, playNext,
    playTrack, loadTrack, play, play_resolved, play_rejected, pause, stop,
    seek, changePlaybackRate, addToPlaylist, removeFromPlaylist,
    handleLoadStart, handleLoadedMetadata, handleCanPlay, handleTimeUpdate,
    handleError, handleWaiting, handleCanPlayThrough;
  cbn;
  repeat (case_match; cbn in *; simplify_eq);
  repeat split;
  repeat match goal with H : audioRef _ = _ |- _ => rewrite H end;
  reflexivity.

(** Apart from mounting, the volume and mute commands and the
    [volumechange] event, no action touches the volume or the mute flag. *)
Lemma step_keeps_volume (a : Action) (s : State) :
  match a with
  | Mount | ChangeVolume _ | ToggleMute | VolumeChange => True
  | _ => keeps_volume s (step a s)
  end.
Proof. destruct a; try exact I; cbn [step]; frame_volume. Qed.

(** Every action keeps [volume_ok]. *)
Lemma step_volume_ok (a : Action) (s : State) :
  volume_ok s -> volume_ok (step a s).
Proof.
  intros Hok. pose proof (step_keeps_volume a s) as Hframe.
  destruct a; try (exact (keeps_volume_ok _ _ Hframe Hok)); clear Hframe;
    cbn [step].
  - (* Mount *)
    destruct Hok as [Hv Ha]. unfold mount, volume_ok.
    destruct (audioRef s) as [audio|] eqn:Haudio.
    + rewrite Haudio. split; assumption.
    + cbn. split; [exact Hv | split; discriminate].
  - (* ChangeVolume *)
    apply changeVolume_volume_ok. exact Hok.
  - (* ToggleMute *)
    destruct Hok as [Hv Ha]. unfold toggleMute, volume_ok.
    destruct (audioRef s) as [audio|] eqn:Haudio.
    + cbn. split; assumption.
    + rewrite Haudio. split; assumption.
  - (* VolumeChange *)
    destruct Hok as [Hv Ha]. unfold deliver, handleVolumeChange, volume_ok.
    destruct (audioRef s) as [audio|] eqn:Haudio.
    + cbn. rewrite Haudio. split; assumption.
    + rewrite Haudio. split; assumption.
Qed.

Lemma reachable_volume_ok (s : State) : reachable s -> volume_ok s.
Proof.
  induction 1 as [|a s _ IH].
  - split; [split; discriminate | reflexivity].
  - apply step_volume_ok. exact IH.
Qed.
End VolumeFacts.

(** C8.  In every state the hook can reach, [changeVolume(v)] leaves the
    volume of the session within [[0, 1]] for every [v]: it is [v] clamped
    to [[0, 1]].  When the clamped volume is positive and the session is
    muted, the mute flag (of the session and of the element) is cleared;
    in every other case the mute flag is what it was, and [toggleMute]
    flips it afterwards whatever the volume. *)
Theorem changeVolume_clamps (newVolume : Q) (s : Player.State) :
  Player.reachable s ->
  let s' := Player.changeVolume newVolume s in
  let clamped := Qmax 0 (Qmin 1 newVolume) in
  (0 <= Player.volume s' <= 1)%Q /\
  (forall audio, Player.audioRef s = Some audio ->
     Player.volume s' = clamped /\
     exists audio', Player.audioRef s' = Some audio' /\
                    Audio.volume audio' = clamped) /\
  ((0 < clamped)%Q -> Player.isMuted s = true ->
     Player.isMuted s' = false /\
     exists audio', Player.audioRef s' = Some audio' /\
                    Audio.muted audio' = false) /\
  (~ ((0 < clamped)%Q /\ Player.isMuted s = true) ->
     Player.isMuted s' = Player.isMuted s) /\
  (forall audio, Player.audioRef s = Some audio ->
     Player.isMuted (Player.toggleMute s') = negb (Player.isMuted s') /\
     Player.volume (Player.toggleMute s') = Player.volume s') /\
  (newVolume <= 0 -> clamped == 0)%Q /\
  (1 <= newVolume -> clamped == 1)%Q /\
  (0 <= newVolume <= 1 -> clamped == newVolume)%Q.
Proof.
  intros Hreach s' clamped.
  pose proof (reachable_volume_ok s Hreach) as Hok.
  pose proof (changeVolume_volume_ok newVolume s Hok) as [Hvol' _].
  fold s' in Hvol'. split; [exact Hvol'|].
  assert (Hvalues := clamp_values newVolume). cbv zeta in Hvalues.
  fold clamped in Hvalues.
  cut ((forall audio, Player.audioRef s = Some audio ->
          Player.volume s' = clamped /\
          exists audio', Player.audioRef s' = Some audio' /\
                         Audio.volume audio' = clamped) /\
       ((0 < clamped)%Q -> Player.isMuted s = true ->
          Player.isMuted s' = false /\
          exists audio', Player.audioRef s' = Some audio' /\
                         Audio.muted audio' = false) /\
       (~ ((0 < clamped)%Q /\ Player.isMuted s = true) ->
          Player.isMuted s' = Player.isMuted s)).
  { intros (H1 & H2 & H3).
    split; [exact H1|]. split; [exact H2|]. split; [exact H3|].
    split; [|exact Hvalues].
    intros audio Ha. destruct (H1 audio Ha) as (_ & audio' & Ha' & _).
    unfold Player.toggleMute. rewrite Ha'. split; reflexivity. }
  destruct Hok as [_ Hmounted]. subst s'. unfold Player.changeVolume.
  fold clamped.
  destruct (Player.audioRef s) as [audio|] eqn:Haudio.
  - destruct (JsNum.Qlt_bool 0 clamped) eqn:Hpos;
      destruct (Player.isMuted s) eqn:Hmuted; cbn [andb]; cbn;
      (split; [intros a' _; split; [reflexivity|eexists; split; reflexivity]|]).
    + apply Qlt_bool_iff in Hpos. split.
      * intros _ _. split; [reflexivity|eexists; split; reflexivity].
      * intros Hnot. exfalso. apply Hnot. split; [exact Hpos|reflexivity].
    + split; [intros _ Hm; discriminate | intros _; exact Hmuted].
    + split; [|intros _; exact Hmuted].
      intros Hlt _. apply Qlt_bool_iff in Hlt. congruence.
    + split; [intros _ Hm; discriminate | intros _; exact Hmuted].
  - rewrite Haudio. split; [intros a' Ha'; discriminate|].
    split; [intros _ Hm; congruence | intros _; reflexivity].
Qed.

Lemma changeVolume_clamps_witness :
  Player.isMuted Sample.muted_session = true /\
  Player.isMuted (Player.changeVolume (1 # 2) Sample.muted_session) = false /\
  (0 <= Player.volume (Player.changeVolume 7 Sample.muted_session) <= 1)%Q.
Proof.
  assert (Hreach : Player.reachable Sample.muted_session).
  { unfold Sample.muted_session. cbn [Player.run].
    repeat apply Player.reachable_step. apply Player.reachable_init. }
  split; [reflexivity|]. split.
  - refine (proj1 (proj1 (proj2 (proj2
              (changeVolume_clamps (1 # 2) Sample.muted_session Hreach)))
              _ eq_refl)).
    vm_compute. reflexivity.
  - exact (proj1 (changeVolume_clamps 7 Sample.muted_session Hreach)).
Defined.

(** * Further properties *)

(** ** Navigation utilities *)

Section IndexOfFacts.
Import JsArray.

Lemma indexOf_absent (a : list Z) (x : Z) : x ∉ a -> indexOf a x = -1.
Proof.
  induction a as [|y a IH]; intros Hx; [reflexivity|]. cbn [indexOf].
  apply not_elem_of_cons in Hx as [Hne Hx].
  destruct (Z.eqb_spec y x); [congruence|]. rewrite (IH Hx). reflexivity.
Qed.

(** In a duplicate-free array [indexOf] inverts the lookup. *)
Lemma indexOf_lookup (a : list Z) (i : nat) (x : Z) :
  NoDup a -> a !! i = Some x -> indexOf a x = Z.of_nat i.
Proof.
  revert i. induction a as [|y a IH]; intros i Hnd Hi.
  - rewrite lookup_nil in Hi. discriminate.
  - apply NoDup_cons in Hnd as [Hy Hnd]. cbn [indexOf]. destruct i as [|i].
    + cbn in Hi. injection Hi as ->. rewrite Z.eqb_refl. reflexivity.
    + cbn in Hi. destruct (Z.eqb_spec y x) as [->|_].
      * exfalso. apply Hy. apply list_elem_of_lookup. eauto.
      * rewrite (IH i Hnd Hi).
        destruct (Z.eqb_spec (Z.of_nat i) (-1)); lia.
Qed.

Lemma indexOf_present (a : list Z) (x : Z) :
  x ∈ a ->
  exists i, indexOf a x = Z.of_nat i /\ a !! i = Some x.
Proof.
  induction a as [|y a IH]; intros Hx; [apply elem_of_nil in Hx; contradiction|].
  cbn [indexOf]. destruct (Z.eqb_spec y x) as [->|Hne].
  - exists 0%nat. split; reflexivity.
  - apply elem_of_cons in Hx as [Heq|Hx]; [congruence|].
    destruct (IH Hx) as (i & Hi & Hlook). exists (S i). rewrite Hi.
    destruct (Z.eqb_spec (Z.of_nat i) (-1)); [lia|]. split; [lia|exact Hlook].
Qed.

Lemma js_nth_lookup (a : list Z) (i : nat) :
  js_nth a (Z.of_nat i) = a !! i.
Proof.
  unfold js_nth. destruct (Z.ltb_spec (Z.of_nat i) 0); [lia|].
  rewrite Nat2Z.id. reflexivity.
Qed.
End IndexOfFacts.

Section ShuffleMode.
Import Utils.

Lemma shuffle_mode_next (current total : Z) (order : list Z) :
  total <> 0 -> order <> [] ->
  getNextTrackIndex current total true order =
    JsArray.js_nth order
      (Z.rem (JsArray.indexOf order current + 1) (Z.of_nat (length order))).
Proof.
  intros Ht Ho. unfold getNextTrackIndex.
  destruct (Z.eqb_spec total 0); [contradiction|].
  destruct order; [contradiction|]. reflexivity.
Qed.

Lemma shuffle_mode_previous (current total : Z) (order : list Z) :
  total <> 0 -> order <> [] ->
  getPreviousTrackIndex current total true order =
    JsArray.js_nth order
      (if JsArray.indexOf order current =? 0
       then Z.of_nat (length order) - 1
       else JsArray.indexOf order current - 1).
Proof.
  intros Ht Ho. unfold getPreviousTrackIndex.
  destruct (Z.eqb_spec total 0); [contradiction|].
  destruct order; [contradiction|]. reflexivity.
Qed.
End ShuffleMode.

(** X1.  Shuffle mode, round trip: when the shuffled order is free of
    duplicates and holds the current index, the next index is defined, lies
    in the order, and its previous index is the current one; likewise the
    next index of the previous index. *)
Theorem shuffle_next_previous_roundtrip (current total : Z) (order : list Z) :
  total <> 0 -> NoDup order -> current ∈ order ->
  (exists next,
     Utils.getNextTrackIndex current total true order = Some next /\
     next ∈ order /\
     Utils.getPreviousTrackIndex next total true order = Some current) /\
  (exists previous,
     Utils.getPreviousTrackIndex current total true order = Some previous /\
     previous ∈ order /\
     Utils.getNextTrackIndex previous total true order = Some current).
Proof.
  intros Ht Hnd Hin.
  assert (Hne : order <> []) by (intros ->; apply elem_of_nil in Hin; exact Hin).
  destruct (indexOf_present order current Hin) as (i & Hi & Hlook).
  pose proof (lookup_lt_Some _ _ _ Hlook) as Hlt.
  set (len := Z.of_nat (length order)).
  split.
  - set (n := Z.to_nat (Z.rem (Z.of_nat i + 1) len)).
    assert (Hrem : 0 <= Z.rem (Z.of_nat i + 1) len < len).
    { rewrite Z.rem_mod_nonneg by lia. apply Z.mod_pos_bound. lia. }
    assert (Hn : Z.of_nat n = Z.rem (Z.of_nat i + 1) len) by (subst n; lia).
    destruct (lookup_lt_is_Some_2 order n) as [next Hnext]; [lia|].
    exists next. split; [|split].
    + rewrite shuffle_mode_next by assumption. rewrite Hi. fold len.
      rewrite <- Hn. rewrite js_nth_lookup. exact Hnext.
    + apply list_elem_of_lookup. eauto.
    + rewrite shuffle_mode_previous by assumption.
      rewrite (indexOf_lookup order n next Hnd Hnext). fold len. rewrite Hn.
      destruct (Z.eq_dec (Z.of_nat i + 1) len) as [Hlast|Hnotlast].
      * rewrite Hlast, Z.rem_same by lia. cbn [Z.eqb].
        replace (len - 1) with (Z.of_nat i) by lia.
        rewrite js_nth_lookup. exact Hlook.
      * rewrite Z.rem_small by lia.
        destruct (Z.eqb_spec (Z.of_nat i + 1) 0); [lia|].
        replace (Z.of_nat i + 1 - 1) with (Z.of_nat i) by lia.
        rewrite js_nth_lookup. exact Hlook.
  - set (p := if Z.of_nat i =? 0 then len - 1 else Z.of_nat i - 1).
    assert (Hp : 0 <= p < len).
    { subst p. destruct (Z.eqb_spec (Z.of_nat i) 0); lia. }
    destruct (lookup_lt_is_Some_2 order (Z.to_nat p)) as [previous Hprev]; [lia|].
    exists previous. split; [|split].
    + rewrite shuffle_mode_previous by assumption. rewrite Hi. fold len p.
      rewrite <- (Z2Nat.id p) by lia. rewrite js_nth_lookup. exact Hprev.
    + apply list_elem_of_lookup. eauto.
    + rewrite shuffle_mode_next by assumption.
      rewrite (indexOf_lookup order _ previous Hnd Hprev). fold len.
      rewrite Z2Nat.id by lia. subst p.
      destruct (Z.eqb_spec (Z.of_nat i) 0) as [Hzero|Hpos].
      * replace (len - 1 + 1) with len by lia. rewrite Z.rem_same by lia.
        rewrite <- Hzero. rewrite js_nth_lookup. exact Hlook.
      * replace (Z.of_nat i - 1 + 1) with (Z.of_nat i) by lia.
        rewrite Z.rem_small by lia. rewrite js_nth_lookup. exact Hlook.
Qed.

Lemma shuffle_next_previous_roundtrip_witness :
  exists next,
    Utils.getNextTrackIndex 0 3 true [2; 0; 1] = Some next /\
    next ∈ [2; 0; 1] /\
    Utils.getPreviousTrackIndex next 3 true [2; 0; 1] = Some 0.
Proof.
  refine (proj1 (shuffle_next_previous_roundtrip 0 3 [2; 0; 1] _ _ _)).
  - discriminate.
  - apply (bool_decide_unpack _). vm_compute. exact I.
  - apply (bool_decide_unpack _). vm_compute. exact I.
Defined.

(** X2.  Shuffle mode, current index missing from a non-empty shuffled
    order: the next index is the first entry of the order, while the
    previous index is [undefined]. *)
Theorem shuffle_missing_current (current total first : Z) (rest : list Z) :
  total <> 0 -> current ∉ first :: rest ->
  Utils.getNextTrackIndex current total true (first :: rest) = Some first /\
  Utils.getPreviousTrackIndex current total true (first :: rest) = None.
Proof.
  intros Ht Hout. split.
  - rewrite shuffle_mode_next by (assumption || discriminate).
    rewrite (indexOf_absent _ _ Hout). cbn [Z.add].
    rewrite Z.rem_0_l by (cbn [length]; lia). reflexivity.
  - rewrite shuffle_mode_previous by (assumption || discriminate).
    rewrite (indexOf_absent _ _ Hout). reflexivity.
Qed.

Lemma shuffle_missing_current_witness :
  Utils.getNextTrackIndex 7 3 true [2; 0; 1] = Some 2 /\
  Utils.getPreviousTrackIndex 7 3 true [2; 0; 1] = None.
Proof.
  apply (shuffle_missing_current 7 3 2 [0; 1]); [discriminate|].
  apply (bool_decide_unpack _). vm_compute. exact I.
Defined.

(** X3.  A regenerated shuffle never yields a stale index: with the
    shuffled order taken from [shuffleArray] on the indices of a playlist of
    [n] tracks, the next index in shuffle mode from any valid position is
    again a valid position. *)
Theorem shuffle_next_in_range (undefined : Z) (random : nat -> Q)
    (n : nat) (current : Z) :
  (forall k, (0 <= random k < 1)%Q) ->
  0 <= current < Z.of_nat n ->
  exists next,
    Utils.getNextTrackIndex current (Z.of_nat n) true
      (Utils.shuffleArray undefined random (seqZ 0 (Z.of_nat n))) = Some next /\
    0 <= next < Z.of_nat n.
Proof.
  intros Hrandom Hcur.
  set (order := Utils.shuffleArray undefined random (seqZ 0 (Z.of_nat n))).
  assert (Hperm : order ≡ₚ seqZ 0 (Z.of_nat n))
    by (apply shuffleArray_permutation; assumption).
  assert (Hmem : forall i, i ∈ order <-> 0 <= i < Z.of_nat n).
  { intros i. rewrite Hperm, elem_of_seqZ. lia. }
  assert (Hin : current ∈ order) by (apply Hmem; exact Hcur).
  assert (Hne : order <> []) 
    by (intros Heq; rewrite Heq in Hin; apply elem_of_nil in Hin; exact Hin).
  destruct (indexOf_present order current Hin) as (i & Hi & Hlook).
  pose proof (lookup_lt_Some _ _ _ Hlook) as Hlt.
  assert (Hrem : 0 <= Z.rem (Z.of_nat i + 1) (Z.of_nat (length order))
                   < Z.of_nat (length order)).
  { rewrite Z.rem_mod_nonneg by lia. apply Z.mod_pos_bound. lia. }
  destruct (lookup_lt_is_Some_2 order
              (Z.to_nat (Z.rem (Z.of_nat i + 1) (Z.of_nat (length order)))))
    as [next Hnext]; [lia|].
  exists next. split.
  - rewrite shuffle_mode_next by (assumption || lia). rewrite Hi.
    rewrite <- (Z2Nat.id (Z.rem _ _)) by lia. rewrite js_nth_lookup.
    exact Hnext.
  - apply Hmem. apply list_elem_of_lookup. eauto.
Qed.

Lemma shuffle_next_in_range_witness :
  exists next,
    Utils.getNextTrackIndex 1 (Z.of_nat 4) true
      (Utils.shuffleArray (-1) (fun k => if Nat.even k then 3 # 4 else 1 # 3)%Q
         (seqZ 0 (Z.of_nat 4))) = Some next /\
    0 <= next < Z.of_nat 4.
Proof.
  apply (shuffle_next_in_range (-1)
           (fun k => if Nat.even k then 3 # 4 else 1 # 3)%Q 4 1).
  - intros k. destruct (Nat.even k); split; unfold Qle, Qlt; simpl; lia.
  - lia.
Defined.

(** X4.  Linear mode, cycle: on a playlist of [total] tracks, [k]
    applications of the next index starting from a valid position lead to
    [(start + k) mod total]; after [total] applications the start is reached
    again, and every position is met on the way. *)
Theorem nextLinear_cycle (total start : Z) :
  0 <= start < total ->
  (forall k, Invariant.nextLinear_iter total k start
             = Some ((start + Z.of_nat k) mod total)) /\
  Invariant.nextLinear_iter total (Z.to_nat total) start = Some start /\
  (forall position, 0 <= position < total ->
     exists k, (k < Z.to_nat total)%nat /\
               Invariant.nextLinear_iter total k start = Some position).
Proof.
  intros Hstart.
  assert (Hiter : forall k, Invariant.nextLinear_iter total k start
                            = Some ((start + Z.of_nat k) mod total)).
  { induction k as [|k IH].
    - cbn. rewrite Z.add_0_r, Z.mod_small by lia. reflexivity.
    - change (Invariant.nextLinear_iter total (S k) start)
        with (Invariant.nextLinear_iter total k start
                ≫= fun c => Utils.nextLinear c total).
      rewrite IH. cbn [mbind option_bind]. rewrite nextLinear_rem by lia.
      pose proof (Z.mod_pos_bound (start + Z.of_nat k) total) as Hb.
      rewrite rem_succ_mod by lia.
      rewrite Zplus_mod_idemp_l. f_equal. f_equal. lia. }
  split; [exact Hiter|]. split.
  - rewrite Hiter. rewrite Z2Nat.id by lia.
    rewrite <- (Z.mul_1_l total) at 1. rewrite Z.mod_add by lia.
    rewrite Z.mod_small by lia. reflexivity.
  - intros position Hpos. exists (Z.to_nat ((position - start) mod total)).
    pose proof (Z.mod_pos_bound (position - start) total) as Hb.
    split; [lia|]. rewrite Hiter. rewrite Z2Nat.id by lia.
    rewrite Zplus_mod_idemp_r.
    replace (start + (position - start)) with position by lia.
    rewrite Z.mod_small by lia. reflexivity.
Qed.

Lemma nextLinear_cycle_witness :
  Invariant.nextLinear_iter 3 (Z.to_nat 3) 1 = Some 1.
Proof. refine (proj1 (proj2 (nextLinear_cycle 3 1 _))). lia. Defined.

(** X5.  Whatever the array holds, [shuffleArray] returns a rearrangement
    of it when [Math.random()] stays within [[0, 1)]: the same length, the
    same elements, each as often as before; a duplicate-free array stays
    duplicate-free.  An array of at most one element comes back as it is. *)
Theorem shuffleArray_rearranges {A : Type} (undefined : A)
    (random : nat -> Q) (array : list A) :
  (forall k, (0 <= random k < 1)%Q) ->
  let shuffled := Utils.shuffleArray undefined random array in
  shuffled ≡ₚ array /\
  length shuffled = length array /\
  (forall x, x ∈ shuffled <-> x ∈ array) /\
  (NoDup array -> NoDup shuffled) /\
  ((length array <= 1)%nat -> shuffled = array).
Proof.
  intros Hrandom shuffled.
  assert (Hperm : shuffled ≡ₚ array)
    by (apply shuffleArray_permutation; assumption).
  split; [exact Hperm|]. split; [rewrite Hperm; reflexivity|].
  split; [intros x; rewrite Hperm; reflexivity|].
  split; [intros Hnd; rewrite Hperm; exact Hnd|].
  intros Hshort. subst shuffled. unfold Utils.shuffleArray.
  destruct array as [|x [|y array]]; cbn in Hshort |- *; [reflexivity..|lia].
Qed.

Lemma shuffleArray_rearranges_witness :
  Utils.shuffleArray "?"%string (fun _ => 1 # 2)%Q ["a"; "b"; "c"]%string
    ≡ₚ ["a"; "b"; "c"]%string.
Proof.
  refine (proj1 (shuffleArray_rearranges "?"%string (fun _ => 1 # 2)%Q
                   ["a"; "b"; "c"]%string _)).
  intros k. split; unfold Qle, Qlt; simpl; lia.
Defined.

(** ** Invariants of the hook *)

Section InvariantFacts.
Import Player Invariant.

Ltac unfold_step :=
  unfold deliver, advance, togglePlayPause, clearPlaylist,
    skipForward, skipBackward, handleEnded, playPrevious, playNext,
    playTrack, loadTrack, play, play_resolved, play_rejected, pause, stop,
    seek, changeVolume, toggleMute, changePlaybackRate, addToPlaylist,
    removeFromPlaylist, mount, handleLoadStart, handleLoadedMetadata,
    handleCanPlay, handleTimeUpdate, handleError, handleWaiting,
    handleCanPlayThrough, handleVolumeChange.

Ltac guards :=
  repeat match goal with
         | H : (_ || _) = false |- _ => apply orb_false_iff in H as [? ?]
         | H : (_ && _) = true |- _ => apply andb_true_iff in H as [? ?]
         | H : (_ <? _) = false |- _ => apply Z.ltb_ge in H
         | H : (_ <? _) = true |- _ => apply Z.ltb_lt in H
         | H : (_ >=? _) = false |- _ => rewrite Z.geb_leb in H; apply Z.leb_gt in H
         | H : (_ <=? _) = true |- _ => apply Z.leb_le in H
         | H : (_ =? _) = false |- _ => apply Z.eqb_neq in H
         | H : (_ =? _) = true |- _ => apply Z.eqb_eq in H
         end.

Lemma step_index_ok (a : Action) (s : State) :
  index_ok s -> index_ok (step a s).
Proof.
  unfold index_ok. intros Hok.
  destruct a; cbn [step]; unfold_step; cbn;
    repeat (case_match; cbn in *; simplify_eq); guards; lia.
Qed.

Lemma step_source_ok (a : Action) (s : State) :
  source_ok s -> source_ok (step a s).
Proof.
  unfold source_ok. intros Hok.
  destruct (currentTrack s) as [current|] eqn:Hcurrent;
    destruct (audioRef s) as [audio|] eqn:Haudio; cbn in Hok; try discriminate;
    destruct a; cbn [step]; unfold_step; cbn; rewrite ?Hcurrent, ?Haudio; cbn;
    repeat (case_match; cbn in *; simplify_eq); cbn;
    rewrite ?Hcurrent, ?Haudio; cbn; try exact I; try reflexivity;
    try assumption; try congruence.
Qed.

(** [Math.max(0.25, Math.min(4, rate))] lies in [[0.25, 4]]. *)
Lemma clamp_rate (rate : Q) : (1 # 4 <= Qmax (1 # 4) (Qmin 4 rate) <= 4)%Q.
Proof.
  split; [apply Q.le_max_l|].
  apply Q.max_lub; [discriminate | apply Q.le_min_l].
Qed.

Lemma step_mirror_ok (a : Action) (s : State) :
  mirror_ok s -> mirror_ok (step a s).
Proof.
  unfold mirror_ok. intros [[Hlo Hhi] Hmirror].
  pose proof clamp_rate as Hclamp.
  destruct (audioRef s) as [audio|] eqn:Haudio;
    [destruct Hmirror as (Hv & Hr)|];
    destruct a; cbn [step]; unfold_step; cbn; rewrite ?Haudio; cbn;
    repeat (case_match; cbn in *; simplify_eq); cbn;
    rewrite ?Haudio; cbn;
    repeat split; try assumption; try reflexivity; try apply Hclamp;
    try congruence; try discriminate;
    try (left; reflexivity); try (right; reflexivity).
Qed.

Lemma reachable_invariants (s : State) :
  reachable s -> index_ok s /\ source_ok s /\ mirror_ok s.
Proof.
  induction 1 as [|a s _ (Hindex & Hsource & Hmirror)].
  - split; [unfold index_ok; cbn; lia|]. split; [exact I|].
    split; [split; discriminate|]. reflexivity.
  - split; [apply step_index_ok; exact Hindex|].
    split; [apply step_source_ok; exact Hsource|].
    apply step_mirror_ok; exact Hmirror.
Qed.
End InvariantFacts.

(** X6.  In every state the hook can reach the current index is at least
    [0]: no command and no event ever leaves it negative. *)
Theorem current_index_never_negative (s : Player.State) :
  Player.reachable s -> 0 <= Player.currentTrackIndex s.
Proof. intros Hreach. apply (reachable_invariants s Hreach). Qed.

Lemma current_index_never_negative_witness :
  0 <= Player.currentTrackIndex
         (Player.removeFromPlaylist 5 Sample.playing_first).
Proof.
  apply (current_index_never_negative
           (Player.step (Player.RemoveFromPlaylist 5) Sample.playing_first)).
  unfold Sample.playing_first, Sample.two_tracks. cbn [Player.run].
  repeat apply Player.reachable_step. apply Player.reachable_init.
Defined.

(** X7.  In every state the hook can reach, a loaded track is the one the
    element plays: the element exists and its [src] is the url of the
    current track. *)
Theorem loaded_track_is_element_source (s : Player.State)
    (track : Player.Track) :
  Player.reachable s ->
  Player.currentTrack s = Some track ->
  exists audio,
    Player.audioRef s = Some audio /\ Audio.src audio = Player.url track.
Proof.
  intros Hreach Htrack.
  destruct (reachable_invariants s Hreach) as (_ & Hsource & _).
  unfold Invariant.source_ok in Hsource. rewrite Htrack in Hsource.
  destruct (Player.audioRef s) as [audio|]; [|discriminate].
  exists audio. split; [reflexivity|]. cbn in Hsource. congruence.
Qed.

Lemma loaded_track_is_element_source_witness :
  exists audio,
    Player.audioRef Sample.playing_last = Some audio /\
    Audio.src audio = Player.url Sample.trackB.
Proof.
  apply (loaded_track_is_element_source Sample.playing_last Sample.trackB).
  - unfold Sample.playing_last, Sample.two_tracks. cbn [Player.run].
    repeat apply Player.reachable_step. apply Player.reachable_init.
  - reflexivity.
Defined.

(** X8.  In every state the hook can reach, the playback rate of the
    session is within [[0.25, 4]] and the volume of the session is exactly
    that of the element.  The playback rate of the element is that of the
    session or the default rate [1], to which a load puts the element back
    while the session keeps its own; it is within [[0.25, 4]] as well. *)
Theorem session_mirrors_element (s : Player.State) :
  Player.reachable s ->
  (1 # 4 <= Player.playbackRate s <= 4)%Q /\
  (forall audio, Player.audioRef s = Some audio ->
     Audio.volume audio = Player.volume s /\
     (Audio.playbackRate audio = Player.playbackRate s \/
      Audio.playbackRate audio = 1%Q) /\
     (1 # 4 <= Audio.playbackRate audio <= 4)%Q).
Proof.
  intros Hreach.
  destruct (reachable_invariants s Hreach) as (_ & _ & Hrate & Hmirror).
  split; [exact Hrate|]. intros audio Haudio.
  rewrite Haudio in Hmirror. destruct Hmirror as [Hvolume Hdrift].
  split; [exact Hvolume|]. split; [exact Hdrift|].
  destruct Hdrift as [-> | ->]; [exact Hrate|split; discriminate].
Qed.

Lemma session_mirrors_element_witness :
  (1 # 4 <= Player.playbackRate
              (Player.changePlaybackRate 9 Sample.muted_session) <= 4)%Q.
Proof.
  apply (session_mirrors_element
           (Player.step (Player.ChangePlaybackRate 9) Sample.muted_session)).
  unfold Sample.muted_session. cbn [Player.run].
  repeat apply Player.reachable_step. apply Player.reachable_init.
Defined.

(** ** Navigation commands of the hook *)

Section HookNavigation.
Import Player.

Lemma loadTrack_playlist (track : option Track) (s : State) :
  playlist (loadTrack track s) = playlist s.
Proof. unfold loadTrack. destruct (audioRef s), track; reflexivity. Qed.

(** Selecting a position of the playlist on a mounted hook. *)
Lemma playTrack_loads (n : nat) (track : Track) (audio : Audio.t) (s : State) :
  playlist s !! n = Some track ->
  audioRef s = Some audio ->
  currentTrackIndex (playTrack (Z.of_nat n) s) = Z.of_nat n /\
  currentTrack (playTrack (Z.of_nat n) s) = Some track /\
  playlist (playTrack (Z.of_nat n) s) = playlist s /\
  isPlaying (playTrack (Z.of_nat n) s) = false /\
  exists audio', audioRef (playTrack (Z.of_nat n) s) = Some audio' /\
                 Audio.src audio' = url track.
Proof.
  intros Hn Haudio. rewrite (playTrack_in_range n track s Hn).
  destruct (loadTrack_mounted track audio
              (setCurrentTrackIndex (Z.of_nat n) s) Haudio)
    as (Hcur & (audio' & Ha' & Hsrc & _) & Hplaying & _).
  rewrite loadTrack_index, loadTrack_playlist.
  split; [reflexivity|]. split; [exact Hcur|]. split; [reflexivity|].
  split; [exact Hplaying|]. exists audio'. split; assumption.
Qed.

Lemma playNext_nonempty (s : State) :
  playlist s <> [] ->
  playNext s =
    playTrack (Z.rem (currentTrackIndex s + 1) (Z.of_nat (length (playlist s)))) s.
Proof.
  intros Hne. unfold playNext.
  destruct (Z.eqb_spec (Z.of_nat (length (playlist s))) 0) as [Hlen|_];
    [|reflexivity].
  destruct (playlist s); [contradiction|cbn in Hlen; lia].
Qed.

Lemma playPrevious_nonempty (s : State) :
  playlist s <> [] ->
  playPrevious s =
    playTrack (if currentTrackIndex s =? 0
               then Z.of_nat (length (playlist s)) - 1
               else currentTrackIndex s - 1) s.
Proof.
  intros Hne. unfold playPrevious.
  destruct (Z.eqb_spec (Z.of_nat (length (playlist s))) 0) as [Hlen|_];
    [|reflexivity].
  destruct (playlist s); [contradiction|cbn in Hlen; lia].
Qed.
End HookNavigation.

(** X9.  On a mounted hook with a non-empty playlist, [playNext] always
    ends on a valid position, whatever non-negative index it starts from:
    the new index is [(index + 1) mod length], the track at that position is
    loaded into the element, the playlist is unchanged and nothing plays
    yet. *)
Theorem playNext_loads_valid_position (s : Player.State) (audio : Audio.t) :
  Player.audioRef s = Some audio ->
  0 <= Player.currentTrackIndex s ->
  Player.playlist s <> [] ->
  let s' := Player.playNext s in
  let total := Z.of_nat (length (Player.playlist s)) in
  0 <= Player.currentTrackIndex s' < total /\
  Player.currentTrackIndex s' = (Player.currentTrackIndex s + 1) mod total /\
  Player.playlist s' = Player.playlist s /\
  Player.isPlaying s' = false /\
  exists track audio',
    Player.playlist s !! Z.to_nat (Player.currentTrackIndex s') = Some track /\
    Player.currentTrack s' = Some track /\
    Player.audioRef s' = Some audio' /\
    Audio.src audio' = Player.url track.
Proof.
  intros Haudio Hidx Hne s' total.
  assert (Htotal : 0 < total).
  { subst total. destruct (Player.playlist s); [contradiction|cbn; lia]. }
  pose proof (Z.mod_pos_bound (Player.currentTrackIndex s + 1) total Htotal)
    as Hbound.
  set (n := Z.to_nat ((Player.currentTrackIndex s + 1) mod total)).
  assert (Hn : Z.of_nat n = (Player.currentTrackIndex s + 1) mod total)
    by (subst n; lia).
  destruct (lookup_lt_is_Some_2 (Player.playlist s) n) as [track Htrack];
    [lia|].
  assert (Hs' : s' = Player.playTrack (Z.of_nat n) s).
  { subst s'. rewrite playNext_nonempty by assumption. fold total.
    rewrite Z.rem_mod_nonneg by lia. rewrite Hn. reflexivity. }
  destruct (playTrack_loads n track audio s Htrack Haudio)
    as (Hi & Hcur & Hpl & Hplaying & audio' & Ha' & Hsrc).
  rewrite <- Hs' in Hi, Hcur, Hpl, Hplaying, Ha'.
  rewrite Hi, Hn. split; [exact Hbound|]. split; [reflexivity|].
  split; [exact Hpl|]. split; [exact Hplaying|].
  exists track, audio'. rewrite <- Hn, Nat2Z.id. repeat split; assumption.
Qed.

Lemma playNext_loads_valid_position_witness :
  Player.currentTrackIndex (Player.playNext Sample.playing_last)
    = (Player.currentTrackIndex Sample.playing_last + 1)
        mod Z.of_nat (length (Player.playlist Sample.playing_last)).
Proof.
  refine (proj1 (proj2 (playNext_loads_valid_position Sample.playing_last _
                          eq_refl _ _))).
  - vm_compute. discriminate.
  - discriminate.
Defined.

(** X10.  On a mounted hook whose current index is a valid position,
    [playPrevious] undoes [playNext] and [playNext] undoes [playPrevious]:
    the index is back where it was and the track at that position is
    loaded. *)
Theorem playNext_playPrevious_roundtrip (s : Player.State) (audio : Audio.t)
    (track : Player.Track) :
  Player.audioRef s = Some audio ->
  0 <= Player.currentTrackIndex s ->
  Player.playlist s !! Z.to_nat (Player.currentTrackIndex s) = Some track ->
  (Player.currentTrackIndex (Player.playPrevious (Player.playNext s))
     = Player.currentTrackIndex s /\
   Player.currentTrack (Player.playPrevious (Player.playNext s))
     = Some track) /\
  (Player.currentTrackIndex (Player.playNext (Player.playPrevious s))
     = Player.currentTrackIndex s /\
   Player.currentTrack (Player.playNext (Player.playPrevious s))
     = Some track).
Proof.
  intros Haudio Hidx Htrack.
  pose proof (lookup_lt_Some _ _ _ Htrack) as Hlt.
  set (total := Z.of_nat (length (Player.playlist s))).
  set (i := Player.currentTrackIndex s) in *.
  assert (Hne : Player.playlist s <> []).
  { intros Heq. rewrite Heq in Htrack. rewrite lookup_nil in Htrack.
    discriminate. }
  assert (Hback : forall s1 audio1 (m : Z),
            Player.playlist s1 = Player.playlist s ->
            Player.audioRef s1 = Some audio1 ->
            m = i ->
            Player.currentTrackIndex (Player.playTrack m s1) = i /\
            Player.currentTrack (Player.playTrack m s1) = Some track).
  { intros s1 audio1 m Hpl Ha1 ->.
    rewrite <- (Z2Nat.id i) at 1 3 by lia.
    destruct (playTrack_loads (Z.to_nat i) track audio1 s1)
      as (Hi & Hcur & _); [rewrite Hpl; exact Htrack|exact Ha1|].
    rewrite Hi. split; [lia|exact Hcur]. }
  split.
  - (* next, then previous *)
    set (n := Z.to_nat ((i + 1) mod total)).
    pose proof (Z.mod_pos_bound (i + 1) total) as Hbound.
    assert (Hn : Z.of_nat n = (i + 1) mod total) by (subst n; lia).
    destruct (lookup_lt_is_Some_2 (Player.playlist s) n) as [next Hnext];
      [lia|].
    assert (Hs1 : Player.playNext s = Player.playTrack (Z.of_nat n) s).
    { rewrite playNext_nonempty by assumption. fold total i.
      rewrite Z.rem_mod_nonneg by lia. rewrite Hn. reflexivity. }
    destruct (playTrack_loads n next audio s Hnext Haudio)
      as (Hi1 & _ & Hpl1 & _ & audio1 & Ha1 & _).
    rewrite <- Hs1 in Hi1, Hpl1, Ha1.
    rewrite playPrevious_nonempty by (rewrite Hpl1; exact Hne).
    rewrite Hi1, Hpl1. fold total.
    apply (Hback _ audio1); [exact Hpl1|exact Ha1|].
    rewrite Hn. destruct (Z.eq_dec (i + 1) total) as [Hlast|Hnotlast].
    + rewrite Hlast, Z.mod_same by lia. cbn [Z.eqb]. lia.
    + rewrite Z.mod_small by lia.
      destruct (Z.eqb_spec (i + 1) 0); lia.
  - (* previous, then next *)
    set (p := if i =? 0 then total - 1 else i - 1).
    assert (Hp : 0 <= p < total).
    { subst p. destruct (Z.eqb_spec i 0); lia. }
    destruct (lookup_lt_is_Some_2 (Player.playlist s) (Z.to_nat p))
      as [previous Hprevious]; [lia|].
    assert (Hs1 : Player.playPrevious s
                  = Player.playTrack (Z.of_nat (Z.to_nat p)) s).
    { rewrite playPrevious_nonempty by assumption. fold total i p.
      rewrite Z2Nat.id by lia. reflexivity. }
    destruct (playTrack_loads (Z.to_nat p) previous audio s Hprevious Haudio)
      as (Hi1 & _ & Hpl1 & _ & audio1 & Ha1 & _).
    rewrite <- Hs1 in Hi1, Hpl1, Ha1.
    rewrite playNext_nonempty by (rewrite Hpl1; exact Hne).
    rewrite Hi1, Hpl1. fold total.
    apply (Hback _ audio1); [exact Hpl1|exact Ha1|].
    rewrite Z2Nat.id by lia. subst p.
    destruct (Z.eqb_spec i 0) as [Hzero|Hpos].
    + replace (total - 1 + 1) with total by lia.
      rewrite Z.rem_same by lia. lia.
    + replace (i - 1 + 1) with i by lia. apply Z.rem_small. lia.
Qed.

Lemma playNext_playPrevious_roundtrip_witness :
  Player.currentTrackIndex
    (Player.playPrevious (Player.playNext Sample.playing_last))
  = Player.currentTrackIndex Sample.playing_last.
Proof.
  refine (proj1 (proj1 (playNext_playPrevious_roundtrip Sample.playing_last _
                          Sample.trackB eq_refl _ eq_refl))).
  vm_compute. discriminate.
Defined.

(** ** Playlist commands of the hook *)

Section PlaylistFacts.
Import Player.

(** Removing an id no track holds changes nothing. *)
Lemma removeFromPlaylist_absent (trackId : Q) (s : State) :
  (forall track, track ∈ playlist s -> hasId trackId track = false) ->
  removeFromPlaylist trackId s = s.
Proof.
  intros Hnone. destruct (findIndex_absent _ _ Hnone) as [Habsent Hfilter].
  unfold removeFromPlaylist. rewrite Habsent, Hfilter. cbn [Z.eqb negb andb].
  apply setPlaylist_same.
Qed.

Lemma removeFromPlaylist_playlist (trackId : Q) (s : State) :
  playlist (removeFromPlaylist trackId s) =
    List.filter (fun track => negb (hasId trackId track)) (playlist s).
Proof.
  unfold removeFromPlaylist.
  destruct (negb (findIndex trackId (playlist s) =? -1)
            && (findIndex trackId (playlist s) <=? currentTrackIndex s));
    reflexivity.
Qed.

Lemma hasId_refl (track : Track) : hasId (id track) track = true.
Proof. unfold hasId. apply Qeq_bool_iff. reflexivity. Qed.
End PlaylistFacts.

(** X11.  [clearPlaylist] leaves an empty session, whatever the state:
    no track in the playlist, index [0], no current track.  From there every
    navigation command, [play] and any removal are no-ops. *)
Theorem clearPlaylist_empties (s : Player.State) :
  let cleared := Player.clearPlaylist s in
  Player.playlist cleared = [] /\
  Player.currentTrackIndex cleared = 0 /\
  Player.currentTrack cleared = None /\
  (forall audio, Player.audioRef s = Some audio ->
     Player.isPlaying cleared = false /\ Player.currentTime cleared = 0%Q) /\
  Player.playNext cleared = cleared /\
  Player.playPrevious cleared = cleared /\
  (forall trackIndex, Player.playTrack trackIndex cleared = cleared) /\
  Player.play cleared = cleared /\
  (forall trackId, Player.removeFromPlaylist trackId cleared = cleared).
Proof.
  intros cleared.
  assert (Hpl : Player.playlist cleared = []).
  { subst cleared. unfold Player.clearPlaylist, Player.stop. cbn.
    destruct (Player.audioRef s); reflexivity. }
  assert (Hidx : Player.currentTrackIndex cleared = 0).
  { subst cleared. unfold Player.clearPlaylist, Player.stop. cbn.
    destruct (Player.audioRef s); reflexivity. }
  assert (Hcur : Player.currentTrack cleared = None) by reflexivity.
  split; [exact Hpl|]. split; [exact Hidx|]. split; [exact Hcur|].
  split; [|split; [|split; [|split; [|split]]]].
  - intros audio Ha. subst cleared. unfold Player.clearPlaylist, Player.stop.
    cbn. rewrite Ha. split; reflexivity.
  - unfold Player.playNext. rewrite Hpl. reflexivity.
  - unfold Player.playPrevious. rewrite Hpl. reflexivity.
  - intros trackIndex. unfold Player.playTrack. rewrite Hpl. cbn [length].
    destruct (Z.ltb_spec trackIndex 0); [reflexivity|].
    destruct (Z.geb_spec trackIndex (Z.of_nat 0)); [reflexivity|lia].
  - unfold Player.play. rewrite Hcur.
    destruct (Player.audioRef cleared); reflexivity.
  - intros trackId. apply removeFromPlaylist_absent. rewrite Hpl.
    intros track Hin. apply elem_of_nil in Hin. contradiction.
Qed.

(** X12.  [toggleMute] is its own inverse: toggling twice gives back the
    state and the element exactly as they were. *)
Theorem toggleMute_involutive (s : Player.State) :
  Player.toggleMute (Player.toggleMute s) = s.
Proof.
  unfold Player.toggleMute.
  destruct s as [pl ld du ct vo mu ra tr li ix er bu [audio|]]; cbn;
    [|reflexivity].
  rewrite !negb_involutive. destruct audio. reflexivity.
Qed.

(** X13.  Adding a track and then removing it by its generated id gives
    back the state as it was, provided that no track of the playlist already
    has that id and that the current index is a valid position or [0]. *)
Theorem add_then_remove_roundtrip (now rnd : Q) (track : Player.Track)
    (s : Player.State) :
  (forall other, other ∈ Player.playlist s ->
     Player.hasId (now + rnd) other = false) ->
  Player.currentTrackIndex s < Z.of_nat (length (Player.playlist s))
    \/ Player.currentTrackIndex s = 0 ->
  Player.removeFromPlaylist (now + rnd)
    (Player.addToPlaylist now rnd track s) = s.
Proof.
  intros Hfresh Hidx.
  set (added := Player.withFreshId now rnd track).
  assert (Hadded : Player.hasId (now + rnd) added = true)
    by apply (hasId_refl added).
  assert (Hpos : Spec.removed_position (now + rnd)
                   (Player.playlist s ++ [added])
                   (length (Player.playlist s))).
  { split.
    - exists added. split; [|exact Hadded].
      rewrite lookup_app_r by lia. rewrite Nat.sub_diag. reflexivity.
    - intros q other Hq Hother. apply Hfresh.
      rewrite lookup_app_l in Hother by lia.
      apply list_elem_of_lookup. eauto. }
  pose proof (findIndex_found _ _ _ Hpos) as Hfound.
  assert (Hfilter : List.filter
                      (fun t => negb (Player.hasId (now + rnd) t))
                      (Player.playlist s ++ [added]) = Player.playlist s).
  { rewrite List.filter_app. cbn [List.filter]. rewrite Hadded. cbn [negb].
    rewrite app_nil_r.
    destruct (findIndex_absent _ _ Hfresh) as [_ Hsame]. exact Hsame. }
  unfold Player.removeFromPlaylist, Player.addToPlaylist.
  cbn [Player.playlist Player.setPlaylist Player.currentTrackIndex].
  fold added. rewrite Hfound, Hfilter.
  destruct (Z.eqb_spec (Z.of_nat (length (Player.playlist s))) (-1)); [lia|].
  cbn [negb andb].
  destruct (Z.leb_spec (Z.of_nat (length (Player.playlist s)))
              (Player.currentTrackIndex s)) as [Hle|Hgt].
  - assert (Hzero : Player.currentTrackIndex s = 0) by lia.
    destruct s as [pl ld du ct vo mu ra tr li ix er bu au]. cbn in *.
    subst ix. reflexivity.
  - destruct s. reflexivity.
Qed.

Lemma add_then_remove_roundtrip_witness :
  Player.removeFromPlaylist (7 + 1)
    (Player.addToPlaylist 7 1 Sample.trackA Sample.playing_last)
  = Sample.playing_last.
Proof.
  apply (add_then_remove_roundtrip 7 1 Sample.trackA Sample.playing_last).
  - intros other Hin. vm_compute in Hin.
    apply elem_of_cons in Hin as [->|Hin]; [reflexivity|].
    apply elem_of_cons in Hin as [->|Hin]; [reflexivity|].
    apply elem_of_nil in Hin. contradiction.
  - left. vm_compute. reflexivity.
Defined.

(** X14.  After [removeFromPlaylist(id)] no track of the playlist has the
    id, so removing the same id a second time changes nothing. *)
Theorem removeFromPlaylist_idempotent (trackId : Q) (s : Player.State) :
  (forall track, track ∈ Player.playlist (Player.removeFromPlaylist trackId s)
     -> Player.hasId trackId track = false) /\
  Player.findIndex trackId
    (Player.playlist (Player.removeFromPlaylist trackId s)) = -1 /\
  Player.removeFromPlaylist trackId (Player.removeFromPlaylist trackId s)
    = Player.removeFromPlaylist trackId s.
Proof.
  assert (Hgone : forall track,
            track ∈ Player.playlist (Player.removeFromPlaylist trackId s) ->
            Player.hasId trackId track = false).
  { intros track. rewrite removeFromPlaylist_playlist.
    rewrite list_elem_of_In, List.filter_In, negb_true_iff. intros [_ H].
    exact H. }
  split; [exact Hgone|]. split.
  - apply (findIndex_absent _ _ Hgone).
  - apply removeFromPlaylist_absent. exact Hgone.
Qed.

(** X15.  [findIndex] of the removal either returns [-1], and then no
    track of the playlist has the id, or returns the first position whose
    track has the id: a valid position, with no earlier track holding the
    id. *)
Theorem findIndex_first_match (trackId : Q) (tracks : list Player.Track) :
  (Player.findIndex trackId tracks = -1 /\
   forall track, track ∈ tracks -> Player.hasId trackId track = false) \/
  (exists p, Player.findIndex trackId tracks = Z.of_nat p /\
             (p < length tracks)%nat /\
             Spec.removed_position trackId tracks p).
Proof.
  induction tracks as [|track rest IH].
  - left. split; [reflexivity|]. intros track Hin.
    apply elem_of_nil in Hin. contradiction.
  - cbn [Player.findIndex]. destruct (Player.hasId trackId track) eqn:Hhead.
    + right. exists 0%nat. split; [reflexivity|]. split; [cbn; lia|].
      split; [exists track; split; [reflexivity|exact Hhead]|].
      intros q other Hq. lia.
    + destruct IH as [[Hnone Hall]|(p & Hp & Hlt & (t & Ht & Hid) & Hfirst)].
      * left. rewrite Hnone. split; [reflexivity|].
        intros other Hin. apply elem_of_cons in Hin as [->|Hin];
          [exact Hhead|apply Hall; exact Hin].
      * right. exists (S p). rewrite Hp.
        destruct (Z.eqb_spec (Z.of_nat p) (-1)); [lia|].
        split; [lia|]. split; [cbn; lia|]. split.
        -- exists t. split; assumption.
        -- intros q other Hq Hother. destruct q as [|q].
           ++ cbn in Hother. injection Hother as <-. exact Hhead.
           ++ apply (Hfirst q other); [lia|exact Hother].
Qed.

(** ** Position and progress *)

Section PositionFacts.
Import Player.

(** [Math.max(0, Math.min(x, d))] is [x] itself for [x] within [[0, d]]. *)
Lemma clamp_inside (x d : Q) :
  (0 <= x <= d)%Q -> (Qmax 0 (Qmin x d) == x)%Q.
Proof.
  intros [Hlo Hhi]. rewrite (Q.min_l x d Hhi). apply Q.max_r. exact Hlo.
Qed.

Lemma clamp_bounds (x d : Q) :
  (0 <= d)%Q -> (0 <= Qmax 0 (Qmin x d) <= d)%Q.
Proof.
  intros Hd. split; [apply Q.le_max_l|].
  apply Q.max_lub; [exact Hd | apply Q.le_min_r].
Qed.

Lemma clamp_below (x d : Q) : (x <= 0)%Q -> (Qmax 0 (Qmin x d) == 0)%Q.
Proof.
  intros Hx. apply Q.max_l.
  apply Qle_trans with x; [apply Q.le_min_l | exact Hx].
Qed.

Lemma clamp_above (x d : Q) :
  (0 <= d)%Q -> (d <= x)%Q -> (Qmax 0 (Qmin x d) == d)%Q.
Proof.
  intros Hd Hx. rewrite (Q.min_r x d Hx). apply Q.max_r. exact Hd.
Qed.

(** The position and the duration after a seek on a mounted hook. *)
Lemma seek_position (time : Q) (s : State) (audio : Audio.t) :
  audioRef s = Some audio ->
  currentTime (seek time s) = Qmax 0 (Qmin time (duration s)) /\
  duration (seek time s) = duration s /\
  audioRef (seek time s)
    = Some (Audio.with_CurrentTime (Qmax 0 (Qmin time (duration s))) audio).
Proof. intros Ha. unfold seek. rewrite Ha. repeat split. Qed.

(** The percentage of a position within the track. *)
Lemma progress_bounds (s : State) :
  (0 <= currentTime s <= duration s)%Q ->
  (0 <= Derived.progress s <= 100)%Q.
Proof.
  intros [Hlo Hhi]. unfold Derived.progress.
  destruct (JsNum.Qlt_bool 0 (duration s)) eqn:Hpos; [|split; discriminate].
  apply Qlt_bool_iff in Hpos.
  assert (Hratio : (0 <= currentTime s / duration s <= 1)%Q).
  { split.
    - apply Qle_shift_div_l; [exact Hpos|]. lra.
    - apply Qle_shift_div_r; [exact Hpos|]. lra. }
  generalize dependent (currentTime s / duration s)%Q. intros ratio Hratio.
  lra.
Qed.
End PositionFacts.

(** X16.  Skipping on a mounted hook with a non-negative duration, for
    every rounding [fl] of the sum that is monotone and leaves [0], the
    duration and the current position as they are (they are numbers the
    engine holds): after a skip the position lies within [[0, duration]];
    from a position inside the track a forward skip never moves back and a
    backward skip never moves ahead; a forward skip past the end stops at
    the duration and a backward skip past the start stops at [0]. *)
Theorem skip_within_track (fl : Q -> Q) (seconds : Q) (s : Player.State)
    (audio : Audio.t) :
  Player.audioRef s = Some audio ->
  (0 <= Player.duration s)%Q ->
  (forall x y, x <= y -> fl x <= fl y)%Q ->
  (fl 0 == 0)%Q ->
  (fl (Player.duration s) == Player.duration s)%Q ->
  (fl (Player.currentTime s) == Player.currentTime s)%Q ->
  let forward := Player.skipForward fl seconds s in
  let backward := Player.skipBackward fl seconds s in
  (0 <= Player.currentTime forward <= Player.duration s)%Q /\
  (0 <= Player.currentTime backward <= Player.duration s)%Q /\
  ((0 <= seconds)%Q ->
   (0 <= Player.currentTime s <= Player.duration s)%Q ->
   (Player.currentTime s <= Player.currentTime forward)%Q /\
   (Player.currentTime backward <= Player.currentTime s)%Q) /\
  ((Player.duration s <= Player.currentTime s + seconds)%Q ->
   (Player.currentTime forward == Player.duration s)%Q) /\
  ((Player.currentTime s <= seconds)%Q ->
   (Player.currentTime backward == 0)%Q).
Proof.
  intros Haudio Hd Hmono Hzero Hfixd Hfixt forward backward.
  destruct (seek_position (fl (Player.currentTime s + seconds)%Q) s audio
              Haudio) as (Hf & _).
  destruct (seek_position (fl (Player.currentTime s - seconds)%Q) s audio
              Haudio) as (Hb & _).
  fold (Player.skipForward fl seconds s) in Hf.
  fold (Player.skipBackward fl seconds s) in Hb.
  fold forward in Hf. fold backward in Hb. rewrite Hf, Hb.
  split; [apply clamp_bounds; exact Hd|].
  split; [apply clamp_bounds; exact Hd|].
  split; [|split].
  - intros Hsec [Hlo Hhi]. split.
    + assert (Hup : (fl (Player.currentTime s)
                     <= fl (Player.currentTime s + seconds)%Q)%Q)
        by (apply Hmono; lra).
      apply Qle_trans
        with (Qmin (fl (Player.currentTime s + seconds)%Q) (Player.duration s));
        [|apply Q.le_max_r].
      apply Q.min_glb; lra.
    + assert (Hdown : (fl (Player.currentTime s - seconds)%Q
                       <= fl (Player.currentTime s))%Q)
        by (apply Hmono; lra).
      apply Q.max_lub; [exact Hlo|].
      apply Qle_trans with (fl (Player.currentTime s - seconds)%Q);
        [apply Q.le_min_l|lra].
  - intros Hpast. apply clamp_above; [exact Hd|].
    specialize (Hmono _ _ Hpast). lra.
  - intros Hstart. apply clamp_below.
    assert (Hneg : (fl (Player.currentTime s - seconds)%Q <= fl 0)%Q)
      by (apply Hmono; lra).
    lra.
Qed.

Lemma skip_within_track_witness :
  (0 <= Player.currentTime
          (Player.skipForward Sample.round_down (1 # 3) Sample.playing_first)
     <= Player.duration Sample.playing_first)%Q.
Proof.
  refine (proj1 (skip_within_track Sample.round_down (1 # 3)
                   Sample.playing_first _ eq_refl _ _ _ _ _)).
  - vm_compute. discriminate.
  - intros x y Hxy. unfold Sample.round_down.
    apply Qmult_le_compat_r; [|vm_compute; discriminate].
    rewrite <- Zle_Qle. apply Qfloor_resp_le.
    apply Qmult_le_compat_r; [exact Hxy|vm_compute; discriminate].
  - vm_compute. reflexivity.
  - vm_compute. reflexivity.
  - vm_compute. reflexivity.
Defined.

(** X17.  After any [seek] on a mounted hook with a non-negative duration
    the progress percentage of the hook lies within [[0, 100]]; while the
    duration is [0] the progress is [0], nothing is divided by it. *)
Theorem progress_after_seek (time : Q) (s : Player.State) (audio : Audio.t) :
  Player.audioRef s = Some audio ->
  (0 <= Player.duration s)%Q ->
  (0 <= Derived.progress (Player.seek time s) <= 100)%Q /\
  ((Player.duration s == 0)%Q ->
   Derived.progress (Player.seek time s) = 0%Q).
Proof.
  intros Haudio Hd.
  destruct (seek_position time s audio Haudio) as (Hct & Hdur & _). split.
  - apply progress_bounds. rewrite Hct, Hdur. apply clamp_bounds. exact Hd.
  - intros Hzero. unfold Derived.progress. rewrite Hdur.
    destruct (JsNum.Qlt_bool 0 (Player.duration s)) eqn:Hpos; [|reflexivity].
    apply Qlt_bool_iff in Hpos. lra.
Qed.

Lemma progress_after_seek_witness :
  (0 <= Derived.progress (Player.seek 500 Sample.playing_first) <= 100)%Q.
Proof.
  refine (proj1 (progress_after_seek 500 Sample.playing_first _ eq_refl _)).
  vm_compute. discriminate.
Defined.

(** X18.  [calculateProgress] always returns a percentage within
    [[0, 100]]: [0] when the total is missing or [0], the ratio
    [current / total * 100] when the current value lies between [0] and a
    positive total, and the nearer bound otherwise. *)
Theorem calculateProgress_bounds (current : Q) (total : option Q) :
  (0 <= AudioUtils.calculateProgress current total <= 100)%Q /\
  (total = None -> AudioUtils.calculateProgress current total = 0%Q) /\
  (forall t, total = Some t -> (t == 0)%Q ->
     AudioUtils.calculateProgress current total = 0%Q) /\
  (forall t, total = Some t -> (0 < t)%Q -> (0 <= current <= t)%Q ->
     (AudioUtils.calculateProgress current total == current / t * 100)%Q) /\
  (forall t, total = Some t -> (0 < t)%Q -> (t <= current)%Q ->
     (AudioUtils.calculateProgress current total == 100)%Q) /\
  (forall t, total = Some t -> (0 < t)%Q -> (current <= 0)%Q ->
     (AudioUtils.calculateProgress current total == 0)%Q).
Proof.
  assert (Hrange : forall x, (0 <= Qmin 100 (Qmax 0 x) <= 100)%Q).
  { intros x. split; [|apply Q.le_min_l].
    apply Q.min_glb; [discriminate|apply Q.le_max_l]. }
  assert (Hratio : forall t, (0 < t)%Q ->
            (0 <= current -> 0 <= current / t)%Q /\
            (current <= t -> current / t <= 1)%Q /\
            (t <= current -> 1 <= current / t)%Q /\
            (current <= 0 -> current / t <= 0)%Q).
  { intros t Ht. repeat split; intros Hc.
    - apply Qle_shift_div_l; [exact Ht|lra].
    - apply Qle_shift_div_r; [exact Ht|lra].
    - apply Qle_shift_div_l; [exact Ht|lra].
    - apply Qle_shift_div_r; [exact Ht|lra]. }
  unfold AudioUtils.calculateProgress. split; [|split; [|split; [|split; [|split]]]].
  - destruct total as [t|]; [|split; discriminate].
    destruct (Qeq_bool t 0); [split; discriminate|apply Hrange].
  - intros ->. reflexivity.
  - intros t -> Hzero. apply Qeq_bool_iff in Hzero. rewrite Hzero. reflexivity.
  - intros t -> Ht [Hlo Hhi].
    destruct (Qeq_bool t 0) eqn:Hzero; [apply Qeq_bool_iff in Hzero; lra|].
    destruct (Hratio t Ht) as (H0 & H1 & _). specialize (H0 Hlo).
    specialize (H1 Hhi).
    generalize dependent (current / t)%Q. intros ratio H0 H1.
    rewrite Q.max_r by lra. apply Q.min_r. lra.
  - intros t -> Ht Hc.
    destruct (Qeq_bool t 0) eqn:Hzero; [apply Qeq_bool_iff in Hzero; lra|].
    destruct (Hratio t Ht) as (_ & _ & H1 & _). specialize (H1 Hc).
    generalize dependent (current / t)%Q. intros ratio H1.
    rewrite Q.max_r by lra. apply Q.min_l. lra.
  - intros t -> Ht Hc.
    destruct (Qeq_bool t 0) eqn:Hzero; [apply Qeq_bool_iff in Hzero; lra|].
    destruct (Hratio t Ht) as (_ & _ & _ & H1). specialize (H1 Hc).
    generalize dependent (current / t)%Q. intros ratio H1.
    rewrite Q.max_l by lra. apply Q.min_r. discriminate.
Qed.

(** ** Formatting times *)

Section FormatFacts.

Lemma string_length_app (a b : string) :
  String.length (a +:+ b) = (String.length a + String.length b)%nat.
Proof.
  induction a as [|c a IH]; [reflexivity|].
  simpl. f_equal. exact IH.
Qed.

(** Two concatenations with tails of the same length agree part by part. *)
Lemma string_app_inj_tail (a c b d : string) :
  String.length b = String.length d ->
  a +:+ b = c +:+ d -> a = c /\ b = d.
Proof.
  revert c. induction a as [|x a IH]; intros [|y c] Hlen Heq.
  - split; [reflexivity|exact Heq].
  - apply (f_equal String.length) in Heq.
    rewrite !string_length_app in Heq. simpl in Heq. lia.
  - apply (f_equal String.length) in Heq.
    rewrite !string_length_app in Heq. simpl in Heq. lia.
  - change (String x (a +:+ b) = String y (c +:+ d)) in Heq.
    injection Heq as -> Heq. destruct (IH c Hlen Heq) as [-> ->].
    split; reflexivity.
Qed.

(** The floor of a sixtieth, and of a difference with an integer. *)
Lemma Qfloor_div_60 (t : Q) : Qfloor (t / 60) = Qfloor t / 60.
Proof.
  destruct t as [n d]. unfold Qdiv, Qmult, Qinv, Qfloor. cbn.
  rewrite Z.mul_1_r, Pos2Z.inj_mul. symmetry. apply Z.div_div; lia.
Qed.

Lemma Qfloor_sub_Z (x : Q) (m : Z) : Qfloor (x - inject_Z m) = Qfloor x - m.
Proof.
  destruct x as [n d]. unfold Qminus, Qplus, Qopp, inject_Z, Qfloor. cbn.
  rewrite Pos.mul_1_r, Z.mul_1_r.
  replace (n + - m * Z.pos d) with (n + (- m) * Z.pos d) by lia.
  rewrite Z.div_add by lia. lia.
Qed.

Lemma trunc_div_60 (t : Q) : (0 <= t)%Q -> JsMath.trunc (t / 60) = Qfloor t / 60.
Proof.
  intros Ht. rewrite <- Qfloor_div_60.
  destruct t as [n d]. unfold Qle in Ht. cbn in Ht.
  unfold JsMath.trunc, Qdiv, Qmult, Qinv, Qfloor. cbn.
  apply Z.quot_div_nonneg; lia.
Qed.

(** Minutes and seconds of a non-negative time. *)
Lemma minutes_seconds (t : Q) :
  (0 <= t)%Q ->
  Qfloor (t / 60) = Qfloor t / 60 /\
  Qfloor (JsMath.rem t 60) = Qfloor t mod 60.
Proof.
  intros Ht. split; [apply Qfloor_div_60|].
  unfold JsMath.rem. rewrite (trunc_div_60 t Ht).
  change (60 * inject_Z (Qfloor t / 60))%Q
    with (inject_Z (60 * (Qfloor t / 60))).
  rewrite Qfloor_sub_Z. rewrite Z.mod_eq by lia. reflexivity.
Qed.

Lemma Qfloor_nonneg (t : Q) : (0 <= t)%Q -> 0 <= Qfloor t.
Proof. intros Ht. change 0 with (Qfloor 0). apply Qfloor_resp_le. exact Ht. Qed.

(** A number below sixty prints on two characters once padded, and the
    padded print tells the numbers apart. *)
Lemma two_digits_length (n : nat) :
  (n < 100)%nat ->
  String.length (JsMath.padStart 2 "0" (pretty (Z.of_nat n))) = 2%nat.
Proof.
  intros Hn. do 100 (destruct n as [|n]; [vm_compute; reflexivity|]). lia.
Qed.

Lemma two_digits_inj (a b : nat) :
  (a < 60)%nat -> (b < 60)%nat ->
  JsMath.padStart 2 "0" (pretty (Z.of_nat a))
    = JsMath.padStart 2 "0" (pretty (Z.of_nat b)) ->
  a = b.
Proof.
  intros Ha Hb Heq.
  set (f := fun n : nat => JsMath.padStart 2 "0" (pretty (Z.of_nat n))).
  assert (Hnd : NoDup (f <$> seq 0 60)).
  { apply (bool_decide_unpack _). vm_compute. exact I. }
  apply (proj1 (NoDup_alt _) Hnd a b (f a)).
  - rewrite list_lookup_fmap, lookup_seq_lt by exact Ha. reflexivity.
  - rewrite list_lookup_fmap, lookup_seq_lt by exact Hb. cbn. f_equal.
    symmetry. exact Heq.
Qed.

(** The display of the hook for a non-negative time. *)
Lemma hook_formatTime_nonneg (t : Q) :
  (0 <= t)%Q ->
  Derived.formatTime (Some t) =
    pretty (Qfloor t / 60) +:+ ":" +:+
    JsMath.padStart 2 "0" (pretty (Qfloor t mod 60)).
Proof.
  intros Ht. unfold Derived.formatTime.
  destruct (minutes_seconds t Ht) as [-> ->]. reflexivity.
Qed.

Lemma seconds_field (t : Q) :
  (0 <= t)%Q ->
  exists n, (n < 60)%nat /\ Qfloor t mod 60 = Z.of_nat n.
Proof.
  intros Ht. pose proof (Z.mod_pos_bound (Qfloor t) 60) as Hb.
  exists (Z.to_nat (Qfloor t mod 60)). lia.
Qed.
End FormatFacts.

(** X19.  [formatTime] of the hook shows a non-negative time as the whole
    minutes, a colon, and the remaining whole seconds on exactly two
    characters; the display tells the whole seconds apart: two non-negative
    times are shown alike exactly when they have the same whole number of
    seconds.  A time that is not a number is shown as [0:00]. *)
Theorem hook_formatTime_faithful (t1 t2 : Q) :
  (0 <= t1)%Q -> (0 <= t2)%Q ->
  Derived.formatTime (Some t1) =
    pretty (Qfloor t1 / 60) +:+ ":" +:+
    JsMath.padStart 2 "0" (pretty (Qfloor t1 mod 60)) /\
  String.length (JsMath.padStart 2 "0" (pretty (Qfloor t1 mod 60))) = 2%nat /\
  (Derived.formatTime (Some t1) = Derived.formatTime (Some t2)
   <-> Qfloor t1 = Qfloor t2) /\
  Derived.formatTime None = "0:00"%string.
Proof.
  intros H1 H2.
  destruct (seconds_field t1 H1) as (n1 & Hn1 & Hs1).
  destruct (seconds_field t2 H2) as (n2 & Hn2 & Hs2).
  split; [apply hook_formatTime_nonneg; exact H1|].
  split; [rewrite Hs1; apply two_digits_length; lia|].
  split; [|reflexivity].
  rewrite !hook_formatTime_nonneg by assumption. split.
  - intros Heq. rewrite Hs1, Hs2 in Heq.
    apply string_app_inj_tail in Heq as [Hmin Hsec].
    + apply (inj pretty) in Hmin.
      apply (String.app_inj ":"%string) in Hsec.
      apply two_digits_inj in Hsec; [|lia..].
      rewrite (Z.div_mod (Qfloor t1) 60), (Z.div_mod (Qfloor t2) 60) by lia.
      rewrite Hmin, Hs1, Hs2, Hsec. reflexivity.
    + rewrite !string_length_app, !two_digits_length by lia. reflexivity.
  - intros ->. reflexivity.
Qed.

Lemma hook_formatTime_faithful_witness :
  Derived.formatTime (Some (251 # 2)) = Derived.formatTime (Some (1259 # 10))
  <-> Qfloor (251 # 2) = Qfloor (1259 # 10).
Proof.
  refine (proj1 (proj2 (proj2
            (hook_formatTime_faithful (251 # 2) (1259 # 10) _ _))));
    vm_compute; discriminate.
Defined.

(** X20.  [formatTime] of the utilities shows a negative time, or one that
    is not a number, as [00:00]; a non-negative time is shown as the whole
    minutes and the remaining whole seconds, each padded to two characters:
    below 100 minutes the display has exactly five characters. *)
Theorem utils_formatTime_shape (t : Q) :
  AudioUtils.formatTime None = "00:00"%string /\
  ((t < 0)%Q -> AudioUtils.formatTime (Some t) = "00:00"%string) /\
  ((0 <= t)%Q ->
     AudioUtils.formatTime (Some t) =
       JsMath.padStart 2 "0" (pretty (Qfloor t / 60)) +:+ ":" +:+
       JsMath.padStart 2 "0" (pretty (Qfloor t mod 60))) /\
  ((0 <= t)%Q -> Qfloor t < 6000 ->
     String.length (AudioUtils.formatTime (Some t)) = 5%nat).
Proof.
  assert (Hshape : (0 <= t)%Q ->
            AudioUtils.formatTime (Some t) =
              JsMath.padStart 2 "0" (pretty (Qfloor t / 60)) +:+ ":" +:+
              JsMath.padStart 2 "0" (pretty (Qfloor t mod 60))).
  { intros Ht. unfold AudioUtils.formatTime.
    destruct (JsNum.Qlt_bool t 0) eqn:Hneg.
    - apply Qlt_bool_iff in Hneg. lra.
    - destruct (minutes_seconds t Ht) as [-> ->]. reflexivity. }
  split; [reflexivity|]. split; [|split; [exact Hshape|]].
  - intros Hneg. unfold AudioUtils.formatTime.
    apply Qlt_bool_iff in Hneg. rewrite Hneg. reflexivity.
  - intros Ht Hsmall. rewrite (Hshape Ht).
    pose proof (Qfloor_nonneg t Ht) as Hfloor.
    destruct (seconds_field t Ht) as (n & Hn & Hs).
    assert (Hmin : exists m, (m < 100)%nat /\ Qfloor t / 60 = Z.of_nat m).
    { exists (Z.to_nat (Qfloor t / 60)).
      pose proof (Z.div_pos (Qfloor t) 60 Hfloor ltac:(lia)).
      pose proof (Z.div_lt_upper_bound (Qfloor t) 60 100 ltac:(lia) ltac:(lia)).
      lia. }
    destruct Hmin as (m & Hm & Hmeq). rewrite Hs, Hmeq.
    rewrite !string_length_app, !two_digits_length by lia. reflexivity.
Qed.

Lemma utils_formatTime_shape_witness :
  String.length (AudioUtils.formatTime (Some (1257 # 10))) = 5%nat.
Proof.
  refine (proj2 (proj2 (proj2 (utils_formatTime_shape (1257 # 10)))) _ _).
  - vm_compute. discriminate.
  - vm_compute. reflexivity.
Defined.

(** ** Validating uploaded files *)

Section FileFacts.

Lemma lower_app (a b : string) :
  JsMath.lower (a +:+ b) = JsMath.lower a +:+ JsMath.lower b.
Proof.
  induction a as [|c a IH]; [reflexivity|].
  change (JsMath.lower (String c a +:+ b))
    with (String (JsMath.to_lower c) (JsMath.lower (a +:+ b))).
  rewrite IH. reflexivity.
Qed.

Lemma substring_all (e : string) : String.substring 0 (String.length e) e = e.
Proof. induction e as [|c e IH]; [reflexivity|]. simpl. f_equal. exact IH. Qed.

Lemma substring_tail (x e : string) :
  String.substring (String.length x) (String.length e) (x +:+ e) = e.
Proof.
  induction x as [|c x IH]; [apply substring_all|]. simpl. exact IH.
Qed.

Lemma endsWith_app (x e : string) : JsMath.endsWith e (x +:+ e) = true.
Proof.
  unfold JsMath.endsWith. rewrite string_length_app.
  apply andb_true_iff. split; [apply Nat.leb_le; lia|].
  replace (String.length x + String.length e - String.length e)%nat
    with (String.length x) by lia.
  rewrite substring_tail. apply String.eqb_refl.
Qed.

Lemma existsb_elem {A : Type} (f : A -> bool) (l : list A) (x : A) :
  x ∈ l -> f x = true -> existsb f l = true.
Proof.
  intros Hin Hf. apply List.existsb_exists. exists x.
  split; [apply list_elem_of_In; exact Hin|exact Hf].
Qed.
End FileFacts.

(** X21.  [isAudioFile] accepts a file by its extension alone, in any
    letter case and whatever its MIME type, and by a supported MIME type
    alone, whatever its name; a missing file is rejected. *)
Theorem isAudioFile_accepts (f : File.t) :
  AudioUtils.isAudioFile None = false /\
  (forall base suffix ext,
     File.name f = base +:+ suffix ->
     JsMath.lower suffix = ext ->
     ext ∈ AudioUtils.extensions ->
     AudioUtils.isAudioFile (Some f) = true) /\
  (File.type f ∈ AudioUtils.supportedTypes ->
   AudioUtils.isAudioFile (Some f) = true).
Proof.
  split; [reflexivity|]. split.
  - intros base suffix ext Hname Hlower Hext. unfold AudioUtils.isAudioFile.
    apply orb_true_iff. right.
    apply (existsb_elem _ _ ext Hext).
    rewrite Hname, lower_app, Hlower. apply endsWith_app.
  - intros Htype. unfold AudioUtils.isAudioFile.
    apply orb_true_iff. left.
    apply (existsb_elem _ _ (File.type f) Htype). apply String.eqb_refl.
Qed.

Lemma isAudioFile_accepts_witness :
  AudioUtils.isAudioFile
    (Some {| File.name := "My Song.Mp3"; File.type := "";
             File.size := 1; File.lastModified := 0 |}) = true.
Proof.
  apply (proj1 (proj2 (isAudioFile_accepts
           {| File.name := "My Song.Mp3"; File.type := "";
              File.size := 1; File.lastModified := 0 |}))
           "My Song"%string ".Mp3"%string ".mp3"%string).
  - reflexivity.
  - vm_compute. reflexivity.
  - apply (bool_decide_unpack _). vm_compute. exact I.
Defined.

(** X22.  [validateAudioFiles] drops no file and reorders none: every
    file yields either one entry of [validFiles] or one error message, the
    entries are, in order, the files that have a supported format, a size of
    at most 50 MB and whose metadata could be read, and each entry carries
    the id and the url generated for its own file. *)
Theorem validateAudioFiles_partition
    (extractMetadata : File.t -> option AudioUtils.Metadata)
    (now : File.t -> Z) (createAudioUrl : File.t -> string)
    (files : list File.t) :
  let result :=
    AudioUtils.validateAudioFiles extractMetadata now createAudioUrl files in
  (length result.1 + length result.2 = length files)%nat /\
  AudioUtils.file <$> result.1
    = List.filter (AudioUtils.accepted extractMetadata) files /\
  (forall v, v ∈ result.1 ->
     AudioUtils.isAudioFile (Some (AudioUtils.file v)) = true /\
     File.size (AudioUtils.file v) <= 50 * 1024 * 1024 /\
     extractMetadata (AudioUtils.file v) = Some (AudioUtils.metadata v) /\
     AudioUtils.id v
       = AudioUtils.generateFileId (now (AudioUtils.file v)) (AudioUtils.file v) /\
     AudioUtils.url v = createAudioUrl (AudioUtils.file v)).
Proof.
  induction files as [|f files IH]; cbn zeta.
  - split; [reflexivity|]. split; [reflexivity|].
    intros v Hv. apply elem_of_nil in Hv. contradiction.
  - cbn zeta in IH. destruct IH as (Hlen & Hfiles & Hvalid).
    cbn [AudioUtils.validateAudioFiles List.filter].
    destruct (AudioUtils.validateAudioFiles extractMetadata now createAudioUrl
                files) as [validFiles errors]. cbn [fst snd] in *.
    unfold AudioUtils.validateOne, AudioUtils.accepted.
    destruct (AudioUtils.isAudioFile (Some f)) eqn:Haudio; cbn [negb andb].
    + destruct (AudioUtils.isValidFileSize f) eqn:Hsize; cbn [negb andb].
      * destruct (extractMetadata f) as [m|] eqn:Hmeta.
        -- rewrite bool_decide_eq_true_2 by eauto. cbn [fst snd length fmap list_fmap].
           split; [lia|]. split; [f_equal; exact Hfiles|].
           intros v Hv. apply elem_of_cons in Hv as [->|Hv];
             [|apply Hvalid; exact Hv].
           cbn. split; [exact Haudio|]. split; [|repeat split; exact Hmeta].
           unfold AudioUtils.isValidFileSize, AudioUtils.maxSize in Hsize.
           apply Z.leb_le in Hsize. exact Hsize.
        -- rewrite bool_decide_eq_false_2
             by (intros [? ?]; discriminate).
           cbn [fst snd length]. split; [lia|]. split; assumption.
      * cbn [fst snd length]. split; [lia|]. split; assumption.
    + cbn [fst snd length]. split; [lia|]. split; assumption.
Qed.

(** ** More on linear navigation *)

(** X23.  Linear mode, the other way round: on a non-empty playlist the
    previous index of a valid position is again a valid position (the last
    one when coming from the first), and the next index of that previous
    index is the position itself.  On an empty playlist the previous index
    is [-1] in either mode. *)
Theorem previous_next_roundtrip (current total : Z) :
  1 <= total -> 0 <= current < total ->
  (exists previous,
     Utils.previousLinear current total = Some previous /\
     0 <= previous < total /\
     (current = 0 -> previous = total - 1) /\
     Utils.nextLinear previous total = Some current) /\
  (forall shuffle order,
     Utils.getPreviousTrackIndex current 0 shuffle order = Some (-1)).
Proof.
  intros Ht Hc. split; [|reflexivity].
  exists (if current =? 0 then total - 1 else current - 1).
  split; [apply previousLinear_nonempty; lia|].
  destruct (Z.eqb_spec current 0) as [Hzero|Hpos].
  - split; [lia|]. split; [reflexivity|].
    rewrite nextLinear_rem by lia.
    replace (total - 1 + 1) with total by lia.
    rewrite Z.rem_same by lia. congruence.
  - split; [lia|]. split; [contradiction|].
    rewrite nextLinear_rem by lia.
    replace (current - 1 + 1) with current by lia.
    rewrite Z.rem_small by lia. reflexivity.
Qed.

Lemma previous_next_roundtrip_witness :
  exists previous,
    Utils.previousLinear 0 3 = Some previous /\
    0 <= previous < 3 /\
    (0 = 0 -> previous = 3 - 1) /\
    Utils.nextLinear previous 3 = Some 0.
Proof. apply (previous_next_roundtrip 0 3); lia. Defined.

(** ** Transport commands of the hook *)

(** X24.  [changePlaybackRate(r)] on a mounted hook sets the rate of the
    session and of the element to [r] clamped to [[0.25, 4]]: [r] itself
    within the range, [0.25] below it, [4] above it; the volume, the mute
    flag, the position, the playing flag and the loaded track are left as
    they were. *)
Theorem changePlaybackRate_clamps (rate : Q) (s : Player.State)
    (audio : Audio.t) :
  Player.audioRef s = Some audio ->
  let s' := Player.changePlaybackRate rate s in
  let clamped := Qmax (1 # 4) (Qmin 4 rate) in
  Player.playbackRate s' = clamped /\
  Player.audioRef s' = Some (Audio.with_PlaybackRate clamped audio) /\
  (1 # 4 <= clamped <= 4)%Q /\
  (1 # 4 <= rate <= 4 -> clamped == rate)%Q /\
  (rate <= 1 # 4 -> clamped == 1 # 4)%Q /\
  (4 <= rate -> clamped == 4)%Q /\
  Player.volume s' = Player.volume s /\
  Player.isMuted s' = Player.isMuted s /\
  Player.currentTime s' = Player.currentTime s /\
  Player.isPlaying s' = Player.isPlaying s /\
  Player.currentTrack s' = Player.currentTrack s.
Proof.
  intros Haudio s' clamped. subst s'. unfold Player.changePlaybackRate.
  rewrite Haudio. cbn. fold clamped.
  split; [reflexivity|]. split; [reflexivity|]. split; [apply clamp_rate|].
  split; [|split; [|split; [|repeat split]]].
  - intros [Hlo Hhi]. unfold clamped. rewrite (Q.min_r 4 rate Hhi).
    apply Q.max_r. exact Hlo.
  - intros Hlow. unfold clamped. apply Q.max_l.
    apply Qle_trans with rate; [apply Q.le_min_r|exact Hlow].
  - intros Hhigh. unfold clamped. rewrite (Q.min_l 4 rate Hhigh).
    apply Q.max_r. discriminate.
Qed.

Lemma changePlaybackRate_clamps_witness :
  Player.playbackRate (Player.changePlaybackRate 9 Sample.playing_first)
    = Qmax (1 # 4) (Qmin 4 9).
Proof.
  exact (proj1 (changePlaybackRate_clamps 9 Sample.playing_first _ eq_refl)).
Defined.

(** X25.  The play / pause toggle on a mounted hook with a loaded track:
    from a paused session the toggle issues a play attempt which, once it
    resolves, leaves the session playing with the element running; the next
    toggle pauses both again; neither changes the track, the position or
    the playlist.  Without a loaded track the toggle of a paused session
    does nothing. *)
Theorem togglePlayPause_cycle (s : Player.State) (audio : Audio.t)
    (track : Player.Track) :
  Player.audioRef s = Some audio ->
  Player.isPlaying s = false ->
  Player.currentTrack s = Some track ->
  let started :=
    Player.step Player.PlayResolved (Player.togglePlayPause s) in
  let paused := Player.togglePlayPause started in
  (Player.isPlaying started = true /\
   Player.error started = None /\
   Player.audioRef started = Some (Audio.with_Paused false audio)) /\
  (Player.isPlaying paused = false /\
   Player.audioRef paused = Some (Audio.with_Paused true audio)) /\
  (Player.currentTrack paused = Some track /\
   Player.currentTime paused = Player.currentTime s /\
   Player.playlist paused = Player.playlist s /\
   Player.currentTrackIndex paused = Player.currentTrackIndex s).
Proof.
  intros Haudio Hpaused Htrack started paused.
  assert (H1 : Player.togglePlayPause s = Player.setError None s).
  { unfold Player.togglePlayPause. rewrite Hpaused. unfold Player.play.
    rewrite Haudio, Htrack. reflexivity. }
  assert (H2 : started =
            Player.setIsPlaying true
              (Player.setAudioRef (Some (Audio.with_Paused false audio))
                 (Player.setError None s))).
  { subst started. rewrite H1. cbn [Player.step].
    unfold Player.deliver, Player.play_resolved. cbn. rewrite Haudio.
    reflexivity. }
  assert (H3 : paused =
            Player.setIsPlaying false
              (Player.setAudioRef
                 (Some (Audio.pause (Audio.with_Paused false audio))) started)).
  { subst paused. rewrite H2. reflexivity. }
  rewrite H3, H2. cbn. destruct audio.
  repeat split; try reflexivity; assumption.
Qed.

Lemma togglePlayPause_cycle_witness :
  Player.isPlaying
    (Player.step Player.PlayResolved
       (Player.togglePlayPause (Player.pause Sample.playing_first))) = true.
Proof.
  exact (proj1 (proj1 (togglePlayPause_cycle
                  (Player.pause Sample.playing_first) _ Sample.trackA
                  eq_refl eq_refl eq_refl))).
Defined.

(** X26.  As long as the element does not exist every command that
    drives it returns at once: loading, pausing, stopping, seeking, skipping,
    the volume, mute and rate commands and [play] leave the state as it is;
    so does loading a missing track on any state. *)
Theorem commands_need_element (s : Player.State) :
  (forall s0, Player.loadTrack None s0 = s0) /\
  (Player.audioRef s = None ->
   (forall track, Player.loadTrack track s = s) /\
   Player.play s = s /\
   Player.pause s = s /\
   Player.stop s = s /\
   (forall time, Player.seek time s = s) /\
   (forall fl seconds, Player.skipForward fl seconds s = s) /\
   (forall fl seconds, Player.skipBackward fl seconds s = s) /\
   (forall v, Player.changeVolume v s = s) /\
   Player.toggleMute s = s /\
   (forall rate, Player.changePlaybackRate rate s = s)).
Proof.
  split.
  - intros s0. unfold Player.loadTrack. destruct (Player.audioRef s0); reflexivity.
  - intros Hnone.
    unfold Player.loadTrack, Player.play, Player.pause, Player.stop,
      Player.skipForward, Player.skipBackward, Player.seek,
      Player.changeVolume, Player.toggleMute, Player.changePlaybackRate.
    rewrite Hnone. repeat split.
Qed.

Lemma commands_need_element_witness :
  Player.seek 5 Player.init = Player.init.
Proof.
  exact (proj1 (proj2 (proj2 (proj2 (proj2
           (proj2 (commands_need_element Player.init) eq_refl))))) 5%Q).
Defined.
